(** * A shallow embedding of [mr/core/motion.py]

    The module computes mean squared displacements, two-point
    correlations, drift curves and van Hove histograms from a table of
    particle trajectories with pandas and numpy.

    Modelling conventions:
    - a float column value is [flt := option R]: [None] is NaN (and the
      infinities that a division by zero would give, none of which the
      modelled code can produce with a non-zero numerator);
    - a trajectory table is a list of (index label, record) pairs, in row
      order; the label is the pandas index, which [set_index('frame')]
      replaces by the frame column;
    - a raised Python exception is [Raise e] in the [result] monad;
    - pandas' group-by sorts its keys, so groups are visited in increasing
      key order and each group keeps the row order of the table. *)

From Stdlib Require Import String ZArith List Bool Reals Lra Lia.
From Stdlib Require Lists.Finite.
From Stdlib Require Import Sorted.
Import ListNotations.

Open Scope Z_scope.

(** ** Exceptions and the error monad *)

Inductive exn : Type :=
| IndexError
| ValueError
| AttributeError
| ZeroDivisionError
| KeyError
| NameError (name : string).

Inductive result (A : Type) : Type :=
| Ok (a : A)
| Raise (e : exn).
Arguments Ok {A} a.
Arguments Raise {A} e.

Definition bind {A B} (m : result A) (k : A -> result B) : result B :=
  match m with
  | Ok a => k a
  | Raise e => Raise e
  end.

Notation "'let*' v := m 'in' k" := (bind m (fun v => k))
  (at level 200, v ident, m at level 100, k at level 200).

Fixpoint mapR {A B} (f : A -> result B) (l : list A) : result (list B) :=
  match l with
  | [] => Ok []
  | a :: l' => let* b := f a in let* bs := mapR f l' in Ok (b :: bs)
  end.

Definition is_ok {A} (m : result A) : bool :=
  match m with Ok _ => true | Raise _ => false end.

(** [pd.concat] of an empty list raises "No objects to concatenate". *)
Definition pd_concat {A} (l : list (list A)) : result (list A) :=
  match l with
  | [] => Raise ValueError
  | _ => Ok (concat l)
  end.

(** ** Float values with NaN *)

Definition flt := option R.

Definition fadd (a b : flt) : flt :=
  match a, b with Some a, Some b => Some (a + b)%R | _, _ => None end.
Definition fsub (a b : flt) : flt :=
  match a, b with Some a, Some b => Some (a - b)%R | _, _ => None end.
Definition fmul (a b : flt) : flt :=
  match a, b with Some a, Some b => Some (a * b)%R | _, _ => None end.
Definition fneg (a : flt) : flt :=
  match a with Some a => Some (- a)%R | None => None end.
Definition fdiv (a b : flt) : flt :=
  match a, b with
  | Some a, Some b => if Req_dec_T b 0 then None else Some (a / b)%R
  | _, _ => None
  end.
(** [np.sqrt] gives NaN on a negative argument. *)
Definition fsqrt (a : flt) : flt :=
  match a with
  | Some a => if Rlt_dec a 0 then None else Some (sqrt a)
  | None => None
  end.

Fixpoint somes (l : list flt) : list R :=
  match l with
  | [] => []
  | Some v :: l' => v :: somes l'
  | None :: l' => somes l'
  end.

Definition Rsum (l : list R) : R := fold_right Rplus 0%R l.

(** pandas [mean] skips NaN; the mean of no value is NaN. *)
Definition fmean (l : list flt) : flt :=
  match somes l with
  | [] => None
  | vs => Some (Rsum vs / INR (length vs))%R
  end.

(** pandas (of this code's era) [sum] skips NaN; the sum of no value is NaN. *)
Definition fsum (l : list flt) : flt :=
  match somes l with
  | [] => None
  | vs => Some (Rsum vs)
  end.

(** [count] counts the values that are not NaN. *)
Definition fcount (l : list flt) : nat := length (somes l).

(** ** Trajectory tables *)

Record rec : Type := mkrec { probe : Z; frame : Z; x : R; y : R }.

Definition table : Type := list (Z * rec).

(** [traj.set_index('frame', drop=False)] *)
Definition set_index_frame (traj : table) : table :=
  map (fun '(_, r) => (frame r, r)) traj.

Fixpoint insert_uniq (z : Z) (l : list Z) : list Z :=
  match l with
  | [] => [z]
  | h :: t => if z <? h then z :: l else if z =? h then l else h :: insert_uniq z t
  end.

(** Sorted distinct keys, as [groupby] and [np.unique] + [sort] give them. *)
Definition sort_uniq (l : list Z) : list Z := fold_right insert_uniq [] l.

Definition probes (traj : table) : list Z :=
  sort_uniq (map (fun '(_, r) => probe r) traj).

(** The group of [traj.groupby('probe')] with key [p]. *)
Definition group (traj : table) (p : Z) : table :=
  filter (fun '(_, r) => probe r =? p) traj.

Fixpoint lookup {A} (k : Z) (l : list (Z * A)) : option A :=
  match l with
  | [] => None
  | (k', v) :: l' => if k' =? k then Some v else lookup k l'
  end.

Fixpoint nodupb (l : list Z) : bool :=
  match l with
  | [] => true
  | h :: t => negb (existsb (Z.eqb h) t) && nodupb t
  end.

(** ** Frame reindexer *)

(** [np.arange(a, b)] *)
Definition arange (a b : Z) : list Z :=
  map (fun k => a + Z.of_nat k) (seq 0 (Z.to_nat (b - a))).

(** [pos.reindex(np.arange(pos.index[0], 1 + pos.index[-1]))]: an empty
    series fails on [pos.index[0]]; a series with a repeated label cannot be
    reindexed; labels absent from [pos] get the missing value [nan]. *)
Definition reindex {A} (nan : A) (pos : list (Z * A)) : result (list (Z * A)) :=
  match pos with
  | [] => Raise IndexError
  | (i0, _) :: _ =>
      let ilast := last (map fst pos) i0 in
      if nodupb (map fst pos) then
        Ok (map (fun k => (k, match lookup k pos with Some v => v | None => nan end))
                (arange i0 (1 + ilast)))
      else Raise ValueError
  end.

(** [s.shift(n)]: values move [n] positions down (up when [n < 0]), the
    index stays. *)
Definition shift_vals {A} (nan : A) (n : Z) (vs : list A) : list A :=
  let len := length vs in
  if 0 <=? n then
    repeat nan (Nat.min (Z.to_nat n) len) ++ firstn (len - Z.to_nat n) vs
  else
    skipn (Z.to_nat (- n)) vs ++ repeat nan (Nat.min (Z.to_nat (- n)) len).

Fixpoint zipWith {A B C} (f : A -> B -> C) (l1 : list A) (l2 : list B) : list C :=
  match l1, l2 with
  | a :: l1', b :: l2' => f a b :: zipWith f l1' l2'
  | _, _ => []
  end.

(** [pos.sub(pos.shift(lt))] on a two-column (x, y) series. *)
Definition disp_at (vs : list (flt * flt)) (lt : Z) : list (flt * flt) :=
  zipWith (fun '(a, b) '(c, d) => (fsub a c, fsub b d))
          vs (shift_vals (None, None) lt vs).

(** ** Single-trajectory MSD ([msd]) *)

Record msd_row : Type := mkmsd {
  mx : flt; my : flt; mx2 : flt; my2 : flt; mmsd : flt;
  mN : option flt;   (** the [N] column, present when [detail] *)
  mlagt : flt }.

Definition pos_of (traj : table) : list (Z * (flt * flt)) :=
  map (fun '(i, r) => (i, (Some (x r), Some (y r)))) traj.

(** [max_lagtime = min(max_lagtime, len(t))]; [lagtimes = 1 + np.arange(max_lagtime)] *)
Definition msd_lagtimes (traj : table) (max_lagtime : Z) : list Z :=
  map (fun k => 1 + k) (arange 0 (Z.min max_lagtime (Z.of_nat (length traj)))).

Definition sq (a : flt) : flt := fmul a a.

(** [2*disp.icol(0).count(level=0).div(Series(lagtimes))]: the division
    aligns on labels, and [Series(lagtimes)] is labelled [0 .. n-1]. *)
Definition N_col (lagtimes : list Z) (lt : Z) (cnt : nat) : flt :=
  let divisor := lookup lt (combine (arange 0 (Z.of_nat (length lagtimes))) lagtimes) in
  match divisor with
  | Some d => fmul (Some 2%R) (fdiv (Some (INR cnt)) (Some (IZR d)))
  | None => None
  end.

Definition msd_row_at (mpp fps : R) (detail : bool) (lagtimes : list Z)
    (lt : Z) (d : list (flt * flt)) : msd_row :=
  let dx := map fst d in
  let dy := map snd d in
  {| mx := fmul (Some mpp) (fmean dx);
     my := fmul (Some mpp) (fmean dy);
     mx2 := fmul (Some (mpp ^ 2)%R) (fmean (map sq dx));
     my2 := fmul (Some (mpp ^ 2)%R) (fmean (map sq dy));
     mmsd := fmul (Some (mpp ^ 2)%R) (fsum [fmean (map sq dx); fmean (map sq dy)]);
     mN := if detail then Some (N_col lagtimes lt (fcount dx)) else None;
     mlagt := fdiv (Some (IZR lt)) (Some fps) |}.

Definition msd (traj : table) (mpp fps : R) (max_lagtime : Z) (detail : bool)
    : result (list (Z * msd_row)) :=
  let* pos := reindex (None, None) (pos_of traj) in
  let vs := map snd pos in
  let lagtimes := msd_lagtimes traj max_lagtime in
  (* one block of rows per lag, concatenated with the lag as outer key *)
  let* disp := pd_concat (map (fun lt => [(lt, disp_at vs lt)]) lagtimes) in
  Ok (removelast (map (fun '(lt, d) => (lt, msd_row_at mpp fps detail lagtimes lt d)) disp)).

(** ** Multi-probe MSD ([imsd], [emsd]) *)

Inductive statistic : Type := St_msd | St_x | St_y | St_x2 | St_y2.

Definition stat_col (s : statistic) (r : msd_row) : flt :=
  match s with
  | St_msd => mmsd r | St_x => mx r | St_y => my r | St_x2 => mx2 r | St_y2 => my2 r
  end.

(** [imsd]. Line 98, [traj.set_index('frame', inplace=True, drop=False)],
    re-indexes the caller's table in place: the function returns its result
    together with the caller's table as it is after the call. The per-probe
    tables are concatenated with the probe as key, then unstacked: one row
    per lag (sorted), one column per probe, NaN where a probe has no row. *)
Definition imsd (traj : table) (mpp fps : R) (max_lagtime : Z) (statistic : statistic)
    : result (list (flt * list flt)) * table :=
  let traj := set_index_frame traj in
  (let* msds := mapR (fun pid => msd (group traj pid) mpp fps max_lagtime false)
                     (probes traj) in
   let* all := pd_concat msds in
   Ok (map (fun lt => (fdiv (Some (IZR lt)) (Some fps),
                       map (fun tbl => match lookup lt tbl with
                                       | Some r => stat_col statistic r
                                       | None => None
                                       end) msds))
           (sort_uniq (map fst all))),
   traj).

Record erow : Type := mkerow {
  ex : flt; ey : flt; ex2 : flt; ey2 : flt; emsd_v : flt; eN : flt }.

Definition nval (r : msd_row) : flt :=
  match mN r with Some v => v | None => None end.

(** One column of [msds.mul(msds['N'], axis=0).mean(level=1)] divided by
    [msds['N'].mean(level=1)], on the rows of one lag. *)
Definition wmean (rows : list msd_row) (col : msd_row -> flt) : flt :=
  fdiv (fmean (map (fun r => fmul (col r) (nval r)) rows)) (fmean (map nval rows)).

(** Lines 136-143 of [emsd]: per lag (the level-1 key, sorted), the
    weighted column means, the weighted [lagt] column first. *)
Definition emsd_by_lag (traj : table) (mpp fps : R) (max_lagtime : Z)
    : result (list (Z * (flt * erow))) :=
  let* msds := mapR (fun pid => msd (group traj pid) mpp fps max_lagtime true)
                    (probes traj) in
  let* all := pd_concat msds in
  Ok (map (fun lt =>
             let rows := map snd (filter (fun '(l, _) => l =? lt) all) in
             (lt, (wmean rows mlagt,
                   {| ex := wmean rows mx; ey := wmean rows my;
                      ex2 := wmean rows mx2; ey2 := wmean rows my2;
                      emsd_v := wmean rows mmsd; eN := wmean rows nval |})))
          (sort_uniq (map fst all))).

Inductive emsd_out : Type :=
| EmsdSeries (s : list (flt * flt))
| EmsdFrame (f : list (flt * erow)).

(** [emsd]: like [imsd] it re-indexes the caller's table in place (line
    135); [set_index('lagt')] makes the weighted lag time the index. *)
Definition emsd (traj : table) (mpp fps : R) (max_lagtime : Z) (detail : bool)
    : result emsd_out * table :=
  let traj := set_index_frame traj in
  (let* res := emsd_by_lag traj mpp fps max_lagtime in
   let res := map snd res in
   Ok (if detail then EmsdFrame res
       else EmsdSeries (map (fun '(lt, r) => (lt, emsd_v r)) res)),
   traj).

(** ** Two-point correlation ([_tp_corr], [tp_corr]) *)

Definition row4 : Type := flt * flt * flt * flt.
Definition nan4 : row4 := (None, None, None, None).

(** Lines 217-221: a probe's reindexed positions with the columns
    [dx, dy = pos.sub(pos.shift(lagframe))] appended. *)
Definition tp_pos (ptraj : table) (lagframe : Z) : result (list (Z * row4)) :=
  let* pos := reindex (None, None) (pos_of ptraj) in
  let d := disp_at (map snd pos) lagframe in
  Ok (zipWith (fun '(i, (a, b)) '(c, e) => (i, (a, b, c, e))) pos d).

(** Lines 228-234 at one frame, for probes [p1] (row [r1]) and [p2] (row
    [r2]): the separation [R], then [para] and [perp]; [None] when one of
    the three is NaN, the rows that [dropna()] removes. *)
Definition tp_row (r1 r2 : row4) : option (R * R * R) :=
  let '(x1, y1, dx1, dy1) := r1 in
  let '(x2, y2, dx2, dy2) := r2 in
  let R_x := fsub x1 x2 in
  let R_y := fsub y1 y2 in
  let R_ := fsqrt (fadd (sq R_x) (sq R_y)) in
  let n_x := fdiv R_x R_ in
  let n_y := fdiv R_y R_ in
  let para := fmul (fadd (fmul dx1 n_x) (fmul dy1 n_y))
                   (fadd (fmul dx2 n_x) (fmul dy2 n_y)) in
  let p_x := n_y in
  let p_y := fneg n_x in
  let perp := fmul (fadd (fmul dx1 p_x) (fmul dy1 p_y))
                   (fadd (fmul dx2 p_x) (fmul dy2 p_y)) in
  match R_, para, perp with
  | Some r, Some a, Some b => Some (r, a, b)
  | _, _, _ => None
  end.

(** [_tp_corr(traj, lagframe, bins=False)]: the per-pair tables of
    [(frame, (R, para, perp))] concatenated, pairs [p1 < p2] in increasing
    order. The probes' tables are joined on the union of their frames
    ([pd.concat(..., axis=1)]); a probe absent at a frame reads NaN there.
    Line 212 re-indexes the caller's table by frame in place. *)
Definition _tp_corr (traj : table) (lagframe : Z) : result (list (Z * (R * R * R))) * table :=
  let traj := set_index_frame traj in
  (let ids := probes traj in
   let* disps := mapR (fun pid => tp_pos (group traj pid) lagframe) ids in
   let* joined := pd_concat disps in
   let dr := combine ids disps in
   let frames := sort_uniq (concat (map (map fst) disps)) in
   let col pid f := match lookup pid dr with
                    | Some d => match lookup f d with Some v => v | None => nan4 end
                    | None => nan4
                    end in
   let pairs := flat_map (fun p1 => map (fun p2 => (p1, p2)) (filter (fun p2 => p1 <? p2) ids)) ids in
   pd_concat (map (fun '(p1, p2) =>
                     flat_map (fun f => match tp_row (col p1 f) (col p2 f) with
                                        | Some v => [(f, v)]
                                        | None => []
                                        end) frames) pairs),
   traj).

(** The list comprehension over [lagframes], threading the caller's table
    that each call re-indexes; an exception stops it. *)
Fixpoint tp_corr_each (traj : table) (lagframes : list Z)
    : result (list (list (Z * (R * R * R)))) * table :=
  match lagframes with
  | [] => (Ok [], traj)
  | lf :: rest =>
      let '(r, traj) := _tp_corr traj lf in
      match r with
      | Raise e => (Raise e, traj)
      | Ok d => let '(rs, traj) := tp_corr_each traj rest in
                (let* ds := rs in Ok (d :: ds), traj)
      end
  end.

(** [tp_corr(traj, mpp, fps, lagframes, bins=False)]: [ignore_index=True]
    drops the frame and lag labels; [result *= mpp] scales every column. *)
Definition tp_corr (traj : table) (mpp fps : R) (lagframes : list Z)
    : result (list (R * R * R)) * table :=
  let '(rs, traj) := tp_corr_each traj lagframes in
  (let* ds := rs in
   let* D := pd_concat ds in
   Ok (map (fun '(_, (r, a, b)) => (mpp * r, mpp * a, mpp * b)%R) D),
   traj).

(** ** Dirt ([is_not_dirt]) *)

Definition list_max (l : list R) : R :=
  match l with [] => 0%R | v :: vs => fold_left Rmax vs v end.
Definition list_min (l : list R) : R :=
  match l with [] => 0%R | v :: vs => fold_left Rmin vs v end.

(** [is_not_dirt(traj, threshold, mpp)]: per probe (sorted), the diagonal
    of the bounding box of its x and y values compared with [threshold];
    the parameter [mpp] is not used by the source. *)
Definition is_not_dirt (traj : table) (threshold mpp : R) : list (Z * bool) :=
  map (fun pid =>
         let g := map snd (group traj pid) in
         let xs := map x g in
         let ys := map y g in
         let diag_size := sqrt ((list_max xs - list_min xs) ^ 2
                                + (list_max ys - list_min ys) ^ 2) in
         (pid, if Rlt_dec threshold diag_size then true else false))
      (probes traj).

(** ** van Hove ([vanhove]) *)

Inductive bins_spec : Type :=
| Nbins (n : Z)
| BinEdges (e : list R).

Fixpoint decreases (e : list R) : bool :=
  match e with
  | a :: (b :: _) as t => (if Rlt_dec (b - a) 0 then true else false) || decreases t
  | _ => false
  end.

(** [np.histogram(values, bins)[1]]: [n] equal bins over the range of the
    values, [(0, 1)] for no value, widened by 1/2 on each side when the
    range is a single point; explicit edges must not decrease. *)
Definition hist_edges (values : list R) (bins : bins_spec) : result (list R) :=
  match bins with
  | Nbins n =>
      if n <? 1 then Raise ValueError else
      Ok (let '(mn, mx) := match values with
                           | [] => (0%R, 1%R)
                           | _ => (list_min values, list_max values)
                           end in
          let '(mn, mx) := if Req_dec_T mn mx then ((mn - 1/2)%R, (mx + 1/2)%R)
                           else (mn, mx) in
          map (fun k => (mn + INR k * (mx - mn) / IZR n)%R) (seq 0 (S (Z.to_nat n))))
  | BinEdges e => if decreases e then Raise AttributeError else Ok e
  end.

Definition in_bin (lo hi : R) (is_last : bool) (v : R) : bool :=
  (if Rle_dec lo v then true else false) &&
  (if is_last then (if Rle_dec v hi then true else false)
   else (if Rlt_dec v hi then true else false)).

(** [np.histogram(col, bins=edges, density=True)[0]]: bin [i] counts the
    values in [[e_i, e_(i+1))], the last bin its right edge too, NaN not
    counted; [n/db/n.sum()] then divides by the width and the total. *)
Definition hist_density (edges : list R) (col : list flt) : list flt :=
  let vs := somes col in
  let bins := combine (removelast edges) (tl edges) in
  let nb := length bins in
  let counts := map (fun '(i, (lo, hi)) => length (filter (in_bin lo hi (Nat.eqb (S i) nb)) vs))
                    (combine (seq 0 nb) bins) in
  let total := fold_right Nat.add 0%nat counts in
  map (fun '(c, (lo, hi)) => fdiv (fdiv (Some (INR c)) (Some (hi - lo)%R)) (Some (INR total)))
      (combine counts bins).

Inductive vh_out : Type :=
| VHFrame (index : list R) (cols : list (list flt))
| VHSeries (index : list R) (vals : list flt).

(** [vanhove(pos, lagtime, mpp, ensemble, bins)] on a table of [ncols]
    probe columns indexed by frame. The assertion of line 359 compares the
    lag with the largest frame label; its message formats the name
    [frame], which [vanhove] does not define, so a failing assertion raises
    [NameError]. *)
Definition vanhove (ncols : nat) (pos : list (Z * list flt)) (lagtime : Z) (mpp : R)
    (ensemble : bool) (bins : bins_spec) : result vh_out :=
  let* pos := reindex (repeat None ncols) pos in
  match map fst pos with
  | [] => Raise ValueError
  | i :: is =>
      if lagtime <=? fold_left Z.max is i then
        let vs := map snd pos in
        let disp := zipWith (zipWith (fun a b => fmul (Some mpp) (fsub a b)))
                            vs (shift_vals (repeat None ncols) lagtime vs) in
        let values := somes (concat disp) in
        let* global_bins := hist_edges values bins in
        let vh := map (fun j => hist_density global_bins (map (fun r => nth j r None) disp))
                      (seq 0 ncols) in
        let index := removelast global_bins in
        Ok (if ensemble
            then VHSeries index
                   (map (fun b => fdiv (fsum (map (fun c => nth b c None) vh)) (Some (INR ncols)))
                        (seq 0 (length index)))
            else VHFrame index vh)
      else Raise (NameError "frame")
  end.

(** ** Drift ([compute_drift], [subtract_drift]) *)

(** [t.set_index('frame', drop=False).diff()] for one probe: each row minus
    the previous one, NaN on the first row, on the columns frame, x, y. *)
Definition diff_rows (g : table) : list (Z * (option Z * flt * flt)) :=
  let rows := map snd g in
  zipWith (fun r prev => (frame r, match prev with
                                   | Some p => (Some (frame r - frame p),
                                                Some (x r - x p)%R, Some (y r - y p)%R)
                                   | None => (None, None, None)
                                   end))
          rows (None :: map Some rows).

(** [pd.rolling_mean(dx, s, min_periods=0)]: the mean of the last [s] rows. *)
Definition rolling_mean (s : nat) (vals : list flt) : list flt :=
  map (fun i => fmean (firstn (Nat.min s (S i)) (skipn (S i - s) vals)))
      (seq 0 (length vals)).

(** [cumsum] skips NaN: a NaN entry stays NaN, the running sum goes on. *)
Fixpoint cumsum_from (acc : R) (vals : list flt) : list flt :=
  match vals with
  | [] => []
  | None :: l => None :: cumsum_from acc l
  | Some v :: l => Some (acc + v)%R :: cumsum_from (acc + v)%R l
  end.

Definition drift_table : Type := list (Z * (flt * flt)).

Definition compute_drift (traj : table) (smoothing : Z) : result drift_table :=
  let* delta := pd_concat (map (fun pid => diff_rows (group traj pid)) (probes traj)) in
  let delta := filter (fun '(_, (df, _, _)) =>
                         match df with Some d => d =? 1 | None => false end) delta in
  let frames := sort_uniq (map fst delta) in
  let at_f f := filter (fun '(g, _) => g =? f) delta in
  let dxs := map (fun f => fmean (map (fun '(_, (_, a, _)) => a) (at_f f))) frames in
  let dys := map (fun f => fmean (map (fun '(_, (_, _, b)) => b) (at_f f))) frames in
  let '(dxs, dys) := if 0 <? smoothing
                     then (rolling_mean (Z.to_nat smoothing) dxs,
                           rolling_mean (Z.to_nat smoothing) dys)
                     else (dxs, dys) in
  Ok (combine frames (combine (cumsum_from 0 dxs) (cumsum_from 0 dys))).

(** A row of [subtract_drift]'s output; pandas sorts the columns. *)
Record srow : Type := mksrow { s_frame : flt; s_probe : flt; s_x : flt; s_y : flt }.

(** [a - b] with [fill_value=0]: a NaN on one side only is read as 0. *)
Definition sub_fill (a b : flt) : flt :=
  match a, b with
  | Some a, Some b => Some (a - b)%R
  | Some a, None => Some a
  | None, Some b => Some (0 - b)%R
  | None, None => None
  end.

(** [traj.set_index('frame', drop=False).sub(drift, fill_value=0)]: an
    outer join on the frame labels (sorted); each row of the table meets
    each drift row of its frame, or a row of NaN when there is none; a
    drift row whose frame has no record meets a row of NaN. The probe and
    frame columns are absent from [drift] and so are subtracted 0. *)
Definition subtract_drift (traj : table) (drift : option drift_table)
    : result (list (Z * srow)) :=
  let* drift := match drift with Some d => Ok d | None => compute_drift traj 0 end in
  let t := set_index_frame traj in
  Ok (flat_map (fun k =>
        let ls := map snd (filter (fun '(i, _) => i =? k) t) in
        let rs := map snd (filter (fun '(i, _) => i =? k) drift) in
        match ls with
        | [] => map (fun '(dx, dy) =>
                       (k, {| s_frame := None; s_probe := None;
                              s_x := sub_fill None dx; s_y := sub_fill None dy |})) rs
        | _ => flat_map (fun r =>
                 map (fun '(dx, dy) =>
                        (k, {| s_frame := sub_fill (Some (IZR (frame r))) None;
                               s_probe := sub_fill (Some (IZR (probe r))) None;
                               s_x := sub_fill (Some (x r)) dx;
                               s_y := sub_fill (Some (y r)) dy |}))
                     (match rs with [] => [(None, None)] | _ => rs end)) ls
        end)
      (sort_uniq (map fst t ++ map fst drift))).

(** ** Two-point MSD ([tp_msd]) *)

(** [s.groupby(level=0).mean()] on a series with integer labels: one row
    per distinct label (sorted), the mean of its values. *)
Definition group_mean_by_label (s : list (Z * flt)) : list (Z * flt) :=
  map (fun k => (k, fmean (map snd (filter (fun '(l, _) => l =? k) s))))
      (sort_uniq (map fst s)).

(** [tp_msd(traj, mpp, fps, a, lagframes)]: [tp_corr] with [fps = 1] and
    [bins=False], whose [ignore_index=True] labels the rows [0 .. n-1];
    the Python scalar [2/a] raises [ZeroDivisionError] at [a = 0]; the
    index is divided by [fps] (by numpy, so [fps = 0] gives no exception).
    The caller's table is re-indexed by [tp_corr]. *)
Definition tp_msd (traj : table) (mpp fps a : R) (lagframes : list Z)
    : result (list (flt * flt)) * table :=
  let '(res, traj) := tp_corr traj mpp 1 lagframes in
  (let* D := res in
   if Req_dec_T a 0 then Raise ZeroDivisionError else
   let s : list (Z * flt) := combine (arange 0 (Z.of_nat (length D)))
                    (map (fun '(r, para, _) => Some (2 / a * (r * para))%R) D) in
   Ok (map (fun '(k, v) => (fdiv (Some (IZR k)) (Some fps), v)) (group_mean_by_label s)),
   traj).

(** ** Displacement correlations ([relate_frames], [direction_corr], [velocity_corr]) *)

(** [np.arctan2(y, x)] on finite reals. A difference of equal floats is
    [+0.0], so the signed-zero cases of numpy reduce to these: [+pi] on
    the negative x axis, [0] at the origin. *)
Definition atan2 (y x : R) : R :=
  if Rlt_dec 0 x then atan (y / x)
  else if Rlt_dec x 0 then
    (if Rle_dec 0 y then (atan (y / x) + PI)%R else (atan (y / x) - PI)%R)
  else if Rlt_dec 0 y then (PI / 2)%R
  else if Rlt_dec y 0 then (- (PI / 2))%R
  else 0%R.

Definition fatan2 (y x : flt) : flt :=
  match y, x with Some a, Some b => Some (atan2 a b) | _, _ => None end.
Definition fcos (a : flt) : flt := option_map cos a.
Definition fabs (a : flt) : flt := option_map Rabs a.

(** A row of [relate_frames]: indexed by probe, with columns x, y, x_b,
    y_b, dx, dy, dr, direction. *)
Record jrow : Type := mkjrow {
  j_probe : Z; j_x : R; j_y : R; j_xb : flt; j_yb : flt;
  j_dx : flt; j_dy : flt; j_dr : flt; j_direction : flt }.

(** [relate_frames(t, frame1, frame2)]: the records of [frame1] (in the
    table's order), left-joined on the probe label with those of
    [frame2]: each record meets the [frame2] records of its probe, or a row
    of NaN when there is none. With probe labels unique within a frame, as
    in a tracked trajectory, this is pandas' order; with repeated labels
    pandas sorts the join by label, which is not modelled. *)
Definition relate_frames (t : table) (frame1 frame2 : Z) : list jrow :=
  let a := map snd (filter (fun '(_, r) => frame r =? frame1) t) in
  let b := map snd (filter (fun '(_, r) => frame r =? frame2) t) in
  flat_map (fun ra =>
      let mk (xb yb : flt) :=
        let dx := fsub xb (Some (x ra)) in
        let dy := fsub yb (Some (y ra)) in
        mkjrow (probe ra) (x ra) (y ra) xb yb dx dy
               (fsqrt (fadd (fmul dx dx) (fmul dy dy))) (fatan2 dy dx) in
      match filter (fun rb => probe rb =? probe ra) b with
      | [] => [mk None None]
      | ms => map (fun rb => mk (Some (x rb)) (Some (y rb))) ms
      end) a.

(** [np.triu_indices_from(r, 1)] for an [n] by [n] array: the pairs
    [(i, j)] with [i < j], row by row. *)
Definition triu_indices (n : nat) : list (nat * nat) :=
  flat_map (fun i => map (fun j => (i, j)) (seq (S i) (n - S i))) (seq 0 n).

(** The default of [nth]; every index used is in range. *)
Definition jrow_nan : jrow := mkjrow 0 0 0 None None None None None None.

(** [direction_corr(t, frame1, frame2)]: for each pair [i < j] of rows of
    [relate_frames], the distance [r] between their positions at [frame1]
    and the cosine of the difference of their directions. The row holds
    the two columns, which pandas orders by name. *)
Definition direction_corr (t : table) (frame1 frame2 : Z) : list (R * flt) :=
  let j := relate_frames t frame1 frame2 in
  map (fun '(a, b) =>
         let ra := nth a j jrow_nan in
         let rb := nth b j jrow_nan in
         (sqrt ((j_x ra - j_x rb) ^ 2 + (j_y ra - j_y rb) ^ 2),
          fcos (fsub (j_direction ra) (j_direction rb))))
      (triu_indices (length j)).

(** [velocity_corr(t, frame1, frame2)]: as [direction_corr], with the
    column [dot_product = cos * |dr_i * dr_j|]. *)
Definition velocity_corr (t : table) (frame1 frame2 : Z) : list (R * flt) :=
  let j := relate_frames t frame1 frame2 in
  map (fun '(a, b) =>
         let ra := nth a j jrow_nan in
         let rb := nth b j jrow_nan in
         (sqrt ((j_x ra - j_x rb) ^ 2 + (j_y ra - j_y rb) ^ 2),
          fmul (fcos (fsub (j_direction ra) (j_direction rb)))
               (fabs (fmul (j_dr ra) (j_dr rb)))))
      (triu_indices (length j)).

(** Specification helpers: the pairs of elements [(l_i, l_j)], [i < j], in
    order; the unit vector of a displacement, [(1, 0)] for none. *)
Fixpoint upper_pairs {A} (l : list A) : list (A * A) :=
  match l with
  | [] => []
  | a :: l' => map (fun b => (a, b)) l' ++ upper_pairs l'
  end.

Definition unit_dir (dx dy : R) : R * R :=
  let r := sqrt (dx * dx + dy * dy) in
  if Req_dec_T r 0 then (1%R, 0%R) else ((dx / r)%R, (dy / r)%R).

(** ** Outlier selection ([is_typical]) *)

(** Insertion sort on reals ([np.sort] of the finite values). *)
Fixpoint insert_R (v : R) (l : list R) : list R :=
  match l with
  | [] => [v]
  | w :: l' => if Rle_dec v w then v :: w :: l' else w :: insert_R v l'
  end.

Definition sort_R (l : list R) : list R := fold_right insert_R [] l.

(** [Series.quantile(q)]: NaN dropped, no finite value gives NaN; with
    [idx = q * (n - 1)] on the sorted values, [values[idx]] when [idx] is
    whole, else the linear interpolation between [values[int(idx)]] and
    [values[int(idx) + 1]] by [idx % 1]. A [q] outside [0, 1] is refused
    with [ValueError]. *)
Definition quantile (col : list flt) (q : R) : result flt :=
  if Rlt_dec q 0 then Raise ValueError
  else if Rlt_dec 1 q then Raise ValueError
  else
    match sort_R (somes col) with
    | [] => Ok None
    | vs =>
        let idx := (q * INR (length vs - 1))%R in
        let i := Int_part idx in
        let frac := (idx - IZR i)%R in
        if Req_dec_T frac 0 then Ok (Some (nth (Z.to_nat i) vs 0%R))
        else Ok (Some (nth (Z.to_nat i) vs 0%R
                       + (nth (S (Z.to_nat i)) vs 0%R - nth (Z.to_nat i) vs 0%R) * frac)%R)
    end.

(** [msds.ix[frame]] on the float index of [imsd]'s output: the row whose
    label equals [frame] ([KeyError] if there is none); the index of
    [imsd] has no repeated label, and a NaN label equals nothing. *)
Fixpoint lookup_label (t : R) (rows : list (flt * list flt)) : result (list flt) :=
  match rows with
  | [] => Raise KeyError
  | (Some u, row) :: rows' => if Req_dec_T u t then Ok row else lookup_label t rows'
  | (None, _) :: rows' => lookup_label t rows'
  end.

(** Comparisons of a float with a float: false when either is NaN. *)
Definition fgt (a b : flt) : bool :=
  match a, b with
  | Some u, Some v => if Rlt_dec v u then true else false
  | _, _ => false
  end.

Definition flt_lt (a b : flt) : bool := fgt b a.

(** [is_typical(msds, frame, lower, upper)]: one boolean per probe column,
    [(row > a) & (row < b)] with [a], [b] the [lower] and [upper]
    quantiles of the row. *)
Definition is_typical (msds : list (flt * list flt)) (frame : Z) (lower upper : R)
    : result (list bool) :=
  let* row := lookup_label (IZR frame) msds in
  let* a := quantile row lower in
  let* b := quantile row upper in
  Ok (map (fun m => fgt m a && flt_lt m b) row).

(** A uniform shift of every position by [(c, d)]. *)
Definition translate (traj : table) (c d : R) : table :=
  map (fun '(i, r) => (i, mkrec (probe r) (frame r) (x r + c) (y r + d))%R) traj.

(** ** Binning of the two-point correlator ([_tp_corr] with [bins]) *)

(** [np.digitize(v, edges)] for non-decreasing edges: the number of edges
    at or below [v]. *)
Definition digitize (edges : list R) (v : R) : Z :=
  Z.of_nat (length (filter (fun e => if Rle_dec e v then true else false) edges)).

Definition Rmean (l : list R) : R := (Rsum l / INR (length l))%R.

(** Lines 238-241 of [_tp_corr]: the separations [D['R']] are histogrammed
    to get the edges, each row is keyed by the bin [np.digitize] gives its
    [R], [groupby(grouper).mean()] averages the three columns of each key
    (keys sorted), and [set_index('R')] makes the mean [R] the index. The
    rows of [D] have no NaN ([dropna]). *)
Definition tp_bin (D : list (R * R * R)) (bins : bins_spec) : result (list (R * (R * R))) :=
  let* edges := hist_edges (map (fun '(r, _, _) => r) D) bins in
  let g := map (fun '(r, a, b) => (digitize edges r, (r, a, b))) D in
  Ok (map (fun k =>
             let rows := map snd (filter (fun '(j, _) => j =? k) g) in
             (Rmean (map (fun '(r, _, _) => r) rows),
              (Rmean (map (fun '(_, a, _) => a) rows), Rmean (map (fun '(_, _, b) => b) rows))))
          (sort_uniq (map fst g))).

(** ** Concrete inputs *)

(** One probe, frames 0..4, at positions (0,0), (1,0), ..., (4,0). *)
Definition traj_line : table :=
  map (fun k => (k, mkrec 1 k (IZR k) 0)) [0; 1; 2; 3; 4].

(** One probe observed at frames 0 and 2 only (a gap at frame 1). *)
Definition traj_gap : table :=
  [(0, mkrec 1 0 0 0); (2, mkrec 1 2 1 0)].

(** The number of frames a trajectory covers, gaps included: last observed
    frame minus first observed frame plus one, in the claim's words. *)
Definition covered_frames (traj : table) : Z :=
  match traj with
  | [] => 0
  | (_, r0) :: _ => frame (snd (last traj (0, r0))) - frame r0 + 1
  end.

(** One record of probe 1 at frame 5, under the default index label 0. *)
Definition traj_unindexed : table := [(0, mkrec 1 5 0 0)].

(** Two probes over frames 0..2: probe 1 moves by 1 and probe 2 by 2 along
    x per frame. *)
Definition traj_two : table :=
  [(0, mkrec 1 0 0 0); (1, mkrec 1 1 1 0); (2, mkrec 1 2 2 0);
   (3, mkrec 2 0 0 0); (4, mkrec 2 1 2 0); (5, mkrec 2 2 4 0)].

(** Two probes side by side (separation along x) both moving by (0, 1)
    from frame 0 to frame 1. *)
Definition traj_side : table :=
  [(0, mkrec 1 0 0 0); (1, mkrec 1 1 0 1); (2, mkrec 2 0 1 0); (3, mkrec 2 1 1 1)].

(** Two probes two pixels apart along x, both moving by (1, 0) from frame 0
    to frame 1. *)
Definition traj_radial : table :=
  [(0, mkrec 1 0 0 0); (1, mkrec 1 1 1 0); (2, mkrec 2 0 2 0); (3, mkrec 2 1 3 0)].

(** One probe visiting (0, 0) and (2, 0). *)
Definition traj_two_points : table := [(0, mkrec 1 0 0 0); (1, mkrec 1 1 2 0)].

(** One probe column observed at frames 10, 11 and 12. *)
Definition pos_late : list (Z * list flt) :=
  [(10, [Some 0%R]); (11, [Some 1%R]); (12, [Some 2%R])].

(** Two probe columns over frames 0 .. 2; the second moves by 2 per frame. *)
Definition pos_two_cols : list (Z * list flt) :=
  [(0, [Some 0%R; Some 0%R]); (1, [Some 1%R; Some 2%R]); (2, [Some 2%R; Some 4%R])].

(** Probes 1 and 2 at frame 0; only probe 1 at frame 1. *)
Definition traj_lost : table :=
  [(0, mkrec 1 0 0 0); (1, mkrec 2 0 3 4); (2, mkrec 1 1 1 0)].

(** An MSD table as [imsd] gives it: lag labels 1 and 2, three probes. *)
Definition msds_three : list (flt * list flt) :=
  [(Some 1%R, [Some 1%R; Some 2%R; Some 3%R]); (Some 2%R, [Some 4%R; None; Some 9%R])].

(** Three probes on the x axis, at x = 0, 2 and 4 at frame 0, each moving
    by (1, 0) to frame 1: three pairs at lag 1. *)
Definition traj_three : table :=
  [(0, mkrec 1 0 0 0); (1, mkrec 1 1 1 0); (2, mkrec 2 0 2 0); (3, mkrec 2 1 3 0);
   (4, mkrec 3 0 4 0); (5, mkrec 3 1 5 0)].

(** Probe 1 at rest at (5, 5) over frames 0 and 1. *)
Definition traj_still : table := [(0, mkrec 1 0 5 5); (1, mkrec 1 1 5 5)].

(** One record of probe 1 at frame 0, and a drift curve over frames 0 and 1. *)
Definition traj_one : table := [(0, mkrec 1 0 5 5)].
Definition drift_two : drift_table :=
  [(0, (Some 1%R, Some 1%R)); (1, (Some 2%R, Some 2%R))].

(** A series observed at every frame from [f0] on, without gaps. *)
Definition dense {A} (f0 : Z) (vals : list A) : list (Z * A) :=
  combine (arange f0 (f0 + Z.of_nat (length vals))) vals.

(** ** Lemmas on [arange], [nodupb], [lookup] and [sort_uniq] *)

Lemma arange_length a b : length (arange a b) = Z.to_nat (b - a).
Proof. unfold arange. now rewrite length_map, length_seq. Qed.

Lemma In_arange a b k : In k (arange a b) <-> a <= k < b.
Proof.
  unfold arange. rewrite in_map_iff. split.
  - intros (n & <- & Hn). apply in_seq in Hn. lia.
  - intros H. exists (Z.to_nat (k - a)). split; [lia|]. apply in_seq. lia.
Qed.

Lemma arange_snoc a b : a <= b -> arange a (b + 1) = arange a b ++ [b].
Proof.
  intros H. unfold arange.
  replace (Z.to_nat (b + 1 - a)) with (S (Z.to_nat (b - a))) by lia.
  rewrite seq_S, map_app. simpl. f_equal. f_equal. lia.
Qed.

Lemma arange_cons a b : a < b -> arange a b = a :: arange (a + 1) b.
Proof.
  intros H. unfold arange.
  replace (Z.to_nat (b - a)) with (S (Z.to_nat (b - (a + 1)))) by lia.
  simpl. f_equal; [lia|]. rewrite <- seq_shift, map_map.
  apply map_ext. intros n. lia.
Qed.

Lemma arange_NoDup a b : NoDup (arange a b).
Proof.
  unfold arange. apply Finite.Injective_map_NoDup; [|apply seq_NoDup].
  intros n m H. lia.
Qed.

Lemma arange_shift1 n : map (fun k => 1 + k) (arange 0 n) = arange 1 (1 + n).
Proof.
  unfold arange. rewrite map_map.
  replace (1 + n - 1) with (n - 0) by lia. apply map_ext. intros k. lia.
Qed.

Lemma nodupb_NoDup l : nodupb l = true <-> NoDup l.
Proof.
  induction l as [|h t IH]; simpl.
  - split; auto using NoDup_nil.
  - rewrite andb_true_iff, negb_true_iff, IH. split.
    + intros [Hn Hd]. constructor; [|exact Hd].
      intros Hin. assert (existsb (Z.eqb h) t = true) as E.
      { apply existsb_exists. exists h. split; [exact Hin | apply Z.eqb_refl]. }
      congruence.
    + intros Hd. inversion Hd as [|? ? Hn Hd']; subst. split; [|exact Hd'].
      destruct (existsb (Z.eqb h) t) eqn:E; [|reflexivity].
      apply existsb_exists in E as (z & Hz & Heq). apply Z.eqb_eq in Heq.
      subst. contradiction.
Qed.

Lemma map_fst_combine {A B} (l1 : list A) (l2 : list B) :
  length l1 = length l2 -> map fst (combine l1 l2) = l1.
Proof.
  revert l2. induction l1 as [|a l1 IH]; intros [|b l2] H; simpl in *;
    try discriminate; auto.
  f_equal. apply IH. lia.
Qed.

(** Reading back every label of a table with distinct labels gives the
    table itself. *)
Lemma lookup_all {A} (nan : A) (l : list (Z * A)) :
  NoDup (map fst l) ->
  map (fun k => (k, match lookup k l with Some v => v | None => nan end)) (map fst l) = l.
Proof.
  induction l as [|[k v] l IH]; simpl; intros Hd; [reflexivity|].
  inversion Hd as [|? ? Hn Hd']; subst.
  rewrite Z.eqb_refl. f_equal.
  rewrite <- IH at 2 by exact Hd'. apply map_ext_in.
  intros k' Hk'. destruct (Z.eqb_spec k k'); [subst; contradiction | reflexivity].
Qed.

Lemma map_removelast {A B} (f : A -> B) (l : list A) :
  map f (removelast l) = removelast (map f l).
Proof.
  induction l as [|a [|b l] IH]; simpl; auto.
  simpl in IH. rewrite IH. reflexivity.
Qed.

(** ** MSD of one trajectory: the lags *)

Lemma msd_lagtimes_eq traj max_lagtime :
  msd_lagtimes traj max_lagtime
  = arange 1 (1 + Z.min max_lagtime (Z.of_nat (length traj))).
Proof. unfold msd_lagtimes. apply arange_shift1. Qed.

Lemma pd_concat_singletons {A B} (f : A -> B) (l : list A) :
  l <> [] -> pd_concat (map (fun a => [f a]) l) = Ok (map f l).
Proof.
  intros H. assert (E : concat (map (fun a => [f a]) l) = map f l).
  { induction l as [|b l IH]; simpl; [reflexivity|].
    destruct l; simpl in *; [reflexivity|]. f_equal. apply IH. discriminate. }
  destruct l as [|a l]; [congruence|]. rewrite <- E. reflexivity.
Qed.

(** The table [msd] returns, before its last row is dropped. *)
Lemma msd_Ok traj mpp fps max_lagtime detail tbl :
  msd traj mpp fps max_lagtime detail = Ok tbl ->
  exists vs, msd_lagtimes traj max_lagtime <> [] /\
    tbl = removelast (map (fun lt => (lt, msd_row_at mpp fps detail
            (msd_lagtimes traj max_lagtime) lt (disp_at vs lt)))
            (msd_lagtimes traj max_lagtime)).
Proof.
  unfold msd. destruct (reindex _ _) as [pos|e]; simpl; [|discriminate].
  destruct (msd_lagtimes traj max_lagtime) as [|l0 ls] eqn:E; [discriminate|].
  rewrite pd_concat_singletons by discriminate. simpl.
  intros H. injection H as <-. exists (map snd pos). split; [discriminate|].
  rewrite map_map. reflexivity.
Qed.

Lemma msd_keys traj mpp fps max_lagtime detail tbl :
  msd traj mpp fps max_lagtime detail = Ok tbl ->
  map fst tbl = arange 1 (Z.min max_lagtime (Z.of_nat (length traj))).
Proof.
  intros H. apply msd_Ok in H as (vs & Hne & ->).
  rewrite map_removelast, map_map. simpl. rewrite map_id.
  rewrite msd_lagtimes_eq in *.
  set (m := Z.min max_lagtime (Z.of_nat (length traj))) in *.
  assert (1 <= m).
  { destruct (Z_lt_le_dec m 1) as [Hm|Hm]; [|exact Hm].
    exfalso. apply Hne. unfold arange. replace (Z.to_nat (1 + m - 1)) with 0%nat by lia.
    reflexivity. }
  replace (1 + m) with (m + 1) by lia. rewrite arange_snoc by lia.
  apply removelast_last.
Qed.

Ltac real_eqs :=
  repeat match goal with
         | |- Ok _ = Ok _ => f_equal
         | |- (_ :: _) = (_ :: _) => f_equal
         | |- (_, _) = (_, _) => f_equal
         | |- Some _ = Some _ => f_equal
         | |- mkmsd _ _ _ _ _ _ _ = mkmsd _ _ _ _ _ _ _ => f_equal
         | |- mksrow _ _ _ _ = mksrow _ _ _ _ => f_equal
         end;
  simpl INR; try field; try lra.

(** C2: [msd] drops the row of the last lag [max_lagtime] (after the clamp
    to the number of records): whenever it returns a table, its lags are
    exactly [1 .. max_lagtime - 1]. On one probe moving by one pixel per
    frame along x over frames 0..4, with [mpp = fps = 1] and
    [max_lagtime = 2], it returns the single lag-1 row
    <x> = 1, <y> = 0, <x^2> = 1, <y^2> = 0, msd = 1 (and lag time 1 s). *)
Theorem msd_drops_last_lag :
  (forall traj mpp fps max_lagtime detail,
     match msd traj mpp fps max_lagtime detail with
     | Ok tbl => map fst tbl = arange 1 (Z.min max_lagtime (Z.of_nat (length traj)))
     | Raise _ => True
     end) /\
  msd traj_line 1 1 2 false
  = Ok [(1, {| mx := Some 1%R; my := Some 0%R; mx2 := Some 1%R; my2 := Some 0%R;
               mmsd := Some 1%R; mN := None; mlagt := Some 1%R |})].
Proof.
  split.
  - intros traj mpp fps max_lagtime detail.
    destruct (msd traj mpp fps max_lagtime detail) as [tbl|e] eqn:E; [|exact I].
    exact (msd_keys _ _ _ _ _ _ E).
  - cbv -[IZR Rdiv Rminus INR Req_dec_T Rlt_dec sqrt pow].
    destruct (Req_dec_T 1 0) as [H|_]; [lra|].
    real_eqs.
Qed.

(** C7: reindexing a series whose frames are already the consecutive range
    [f0 .. f0 + n - 1] (n >= 1) returns it unchanged, and the labels of the
    reindexed series never leave the observed range [f0, f0 + n - 1]. *)
Theorem reindex_dense_noop {A} (nan : A) (f0 : Z) (vals : list A) :
  vals <> [] ->
  reindex nan (dense f0 vals) = Ok (dense f0 vals) /\
  (forall out, reindex nan (dense f0 vals) = Ok out ->
     forall k, In k (map fst out) -> f0 <= k <= f0 + Z.of_nat (length vals) - 1).
Proof.
  intros Hne.
  set (n := Z.of_nat (length vals)).
  assert (Hn : 1 <= n) by (destruct vals; [congruence|]; unfold n; simpl length; lia).
  assert (Hlen : length (arange f0 (f0 + n)) = length vals)
    by (rewrite arange_length; unfold n; lia).
  assert (Hkeys : map fst (dense f0 vals) = arange f0 (f0 + n))
    by (apply map_fst_combine; exact Hlen).
  assert (Hok : reindex nan (dense f0 vals) = Ok (dense f0 vals)).
  { assert (Ed : exists v0 rest, dense f0 vals = (f0, v0) :: rest).
    { unfold dense. destruct vals as [|v0 vs]; [congruence|].
      rewrite arange_cons by lia. exists v0, (combine (arange (f0 + 1) (f0 + n)) vs).
      reflexivity. }
    destruct Ed as (v0 & rest & Ed).
    replace (reindex nan (dense f0 vals)) with (reindex nan ((f0, v0) :: rest))
      by now rewrite Ed.
    unfold reindex. rewrite <- Ed, Hkeys.
    assert (Hlast : last (arange f0 (f0 + n)) f0 = f0 + n - 1).
    { assert (E : f0 + n = f0 + n - 1 + 1) by lia. rewrite E at 1.
      rewrite arange_snoc by lia. apply last_last. }
    rewrite Hlast. replace (1 + (f0 + n - 1)) with (f0 + n) by lia.
    assert (Hnd : nodupb (arange f0 (f0 + n)) = true)
      by (apply nodupb_NoDup, arange_NoDup).
    rewrite Hnd. f_equal. rewrite <- Hkeys. apply lookup_all.
    rewrite Hkeys. apply arange_NoDup. }
  split; [exact Hok|].
  intros out Hout k Hk. rewrite Hok in Hout. injection Hout as <-.
  rewrite Hkeys, In_arange in Hk. fold n. lia.
Qed.

(** C8 fails as stated: a probe observed at frames 0 and 2 covers three
    frames, but with [max_lagtime = 3] [msd] explores only the lags 1 and 2,
    not [1 .. min(3, 3)]. *)
Lemma msd_lagtimes_gap_counterexample :
  msd_lagtimes traj_gap 3 = [1; 2] /\
  covered_frames traj_gap = 3 /\
  msd_lagtimes traj_gap 3 <> arange 1 (1 + Z.min 3 (covered_frames traj_gap)).
Proof.
  split; [reflexivity|]. split; [reflexivity|]. vm_compute. discriminate.
Qed.

(** ** Ensemble MSD *)

Lemma In_insert_uniq z a l : In z (insert_uniq a l) <-> z = a \/ In z l.
Proof.
  induction l as [|h t IH]; simpl.
  - firstorder (subst; auto).
  - destruct (a <? h) eqn:E1; simpl; [firstorder (subst; auto)|].
    destruct (a =? h) eqn:E2.
    + apply Z.eqb_eq in E2. subst. firstorder (subst; auto).
    + simpl. rewrite IH. firstorder (subst; auto).
Qed.

Lemma In_sort_uniq z l : In z (sort_uniq l) <-> In z l.
Proof.
  induction l as [|a l IH]; simpl; [tauto|].
  rewrite In_insert_uniq, IH. intuition.
Qed.

Lemma probes_set_index traj : probes (set_index_frame traj) = probes traj.
Proof.
  unfold probes, set_index_frame. rewrite map_map. f_equal.
  apply map_ext. intros [i r]. reflexivity.
Qed.

Lemma filter_key_none {A} (k : Z) (l : list (Z * A)) :
  ~ In k (map fst l) -> filter (fun '(l0, _) => l0 =? k) l = [].
Proof.
  induction l as [|[k' v] l IH]; simpl; intros Hn; [reflexivity|].
  destruct (Z.eqb_spec k' k); [subst; tauto|]. apply IH. tauto.
Qed.

Lemma filter_key_unique {A} (k : Z) (v : A) (l : list (Z * A)) :
  NoDup (map fst l) -> lookup k l = Some v ->
  filter (fun '(l0, _) => l0 =? k) l = [(k, v)].
Proof.
  induction l as [|[k' v'] l IH]; simpl; intros Hd Hl; [discriminate|].
  inversion Hd as [|? ? Hn Hd']; subst.
  destruct (Z.eqb_spec k' k).
  - subst. injection Hl as <-. rewrite filter_key_none by exact Hn. reflexivity.
  - apply IH; assumption.
Qed.

Lemma lookup_map_keys {B} (F : Z -> B) (k : Z) (keys : list Z) :
  In k keys -> lookup k (map (fun l => (l, F l)) keys) = Some (F k).
Proof.
  induction keys as [|l keys IH]; simpl; [tauto|]. intros H.
  destruct (Z.eqb_spec l k); [subst; reflexivity|].
  apply IH. destruct H; [congruence | exact H].
Qed.

Lemma somes_map_Some {A} (g : A -> R) (l : list A) :
  somes (map (fun a => Some (g a)) l) = map g l.
Proof. induction l; simpl; congruence. Qed.

Lemma fmean_map_Some {A} (g : A -> R) (l : list A) :
  l <> [] -> fmean (map (fun a => Some (g a)) l) = Some (Rsum (map g l) / INR (length l))%R.
Proof.
  intros H. unfold fmean. rewrite somes_map_Some.
  destruct l; [congruence|]. simpl. rewrite length_map. reflexivity.
Qed.

Lemma msd_keys_NoDup traj mpp fps max_lagtime detail tbl :
  msd traj mpp fps max_lagtime detail = Ok tbl -> NoDup (map fst tbl).
Proof. intros H. rewrite (msd_keys _ _ _ _ _ _ H). apply arange_NoDup. Qed.

(** C1: at a lag where every probe's [msd] table has a defined MSD [m pid]
    and sample count [n pid], the ensemble MSD of [emsd] at that lag is the
    N-weighted mean [sum (m * n) / sum n] of the per-probe MSDs; for two
    probes, [(m1*N1 + m2*N2) / (N1 + N2)]. [emsd_by_lag] is [emsd]'s table
    before [set_index('lagt')]; [emsd] returns its MSD column. *)
Theorem emsd_weighted_mean traj mpp fps max_lagtime lt (m n : Z -> R) :
  probes traj <> [] ->
  Rsum (map n (probes traj)) <> 0%R ->
  (forall pid, In pid (probes traj) ->
     exists tbl row,
       msd (group (set_index_frame traj) pid) mpp fps max_lagtime true = Ok tbl /\
       lookup lt tbl = Some row /\ mmsd row = Some (m pid) /\ mN row = Some (Some (n pid))) ->
  exists tbl lagt row,
    emsd_by_lag (set_index_frame traj) mpp fps max_lagtime = Ok tbl /\
    fst (emsd traj mpp fps max_lagtime false)
      = Ok (EmsdSeries (map (fun '(_, (l, r)) => (l, emsd_v r)) tbl)) /\
    lookup lt tbl = Some (lagt, row) /\
    emsd_v row = Some (Rsum (map (fun pid => m pid * n pid) (probes traj))
                       / Rsum (map n (probes traj)))%R.
Proof.
  intros Hne Hsum Hrow.
  set (t := set_index_frame traj).
  set (f := fun pid => msd (group t pid) mpp fps max_lagtime true).
  set (ps := probes traj) in *.
  (* every probe contributes exactly its own row at [lt] *)
  assert (HA : forall qs, (forall pid, In pid qs -> In pid ps) ->
     exists tbls, mapR f qs = Ok tbls /\ length tbls = length qs /\
       map (fun r => (mmsd r, nval r)) (map snd (filter (fun '(l, _) => l =? lt) (concat tbls)))
       = map (fun pid => (Some (m pid), Some (n pid))) qs).
  { induction qs as [|q qs IH]; intros Hin.
    - exists []. repeat split.
    - destruct (Hrow q (Hin q (or_introl eq_refl))) as (tbl & row & Hm & Hl & Hv & HN).
      destruct IH as (tbls & Ht & Hlen & Heq); [intros; apply Hin; right; assumption|].
      exists (tbl :: tbls). simpl. unfold f at 1. fold t in Hm. rewrite Hm. simpl.
      rewrite Ht. simpl. split; [reflexivity|]. split; [congruence|].
      rewrite filter_app, (filter_key_unique lt row tbl) by
        (eauto using msd_keys_NoDup || exact Hl).
      simpl. unfold nval. rewrite Hv, HN. f_equal. exact Heq. }
  destruct (HA ps (fun p H => H)) as (tbls & Ht & Hlen & Heq).
  assert (Htne : tbls <> []) by (destruct tbls, ps; simpl in *; congruence || lia).
  assert (Hc : pd_concat tbls = Ok (concat tbls)) by (destruct tbls; [congruence | reflexivity]).
  assert (Hin : In lt (sort_uniq (map fst (concat tbls)))).
  { apply In_sort_uniq.
    destruct ps as [|p ps']; [congruence|].
    assert (Hp : In (Some (m p), Some (n p))
                   (map (fun pid => (Some (m pid), Some (n pid))) (p :: ps'))) by (left; reflexivity).
    rewrite <- Heq in Hp. apply in_map_iff in Hp as (r & _ & Hr).
    apply in_map_iff in Hr as ([l r'] & Hr' & Hlr). simpl in Hr'. subst r'.
    apply filter_In in Hlr as [Hlr Hk]. apply Z.eqb_eq in Hk. subst l.
    apply in_map_iff. exists (lt, r). auto. }
  set (rows := map snd (filter (fun '(l, _) => l =? lt) (concat tbls))) in *.
  set (F := fun lt0 : Z =>
             let rows0 := map snd (filter (fun '(l, _) => l =? lt0) (concat tbls)) in
             (wmean rows0 mlagt,
              {| ex := wmean rows0 mx; ey := wmean rows0 my;
                 ex2 := wmean rows0 mx2; ey2 := wmean rows0 my2;
                 emsd_v := wmean rows0 mmsd; eN := wmean rows0 nval |})).
  assert (Hby : emsd_by_lag t mpp fps max_lagtime
                = Ok (map (fun l => (l, F l)) (sort_uniq (map fst (concat tbls))))).
  { unfold emsd_by_lag.
    replace (probes t) with ps by (unfold t, ps; symmetry; apply probes_set_index).
    unfold f in Ht. rewrite Ht. simpl. rewrite Hc. reflexivity. }
  exists (map (fun l => (l, F l)) (sort_uniq (map fst (concat tbls)))).
  exists (fst (F lt)), (snd (F lt)).
  split; [exact Hby|]. split.
  { unfold emsd. fold t. simpl. rewrite Hby. simpl. do 2 f_equal.
    rewrite map_map. apply map_ext. intros [k [a b]]. reflexivity. }
  split; [rewrite lookup_map_keys by exact Hin; destruct (F lt); reflexivity|].
  simpl. fold rows. unfold wmean.
  assert (E1 : map (fun r => fmul (mmsd r) (nval r)) rows
               = map (fun pid => Some (m pid * n pid)%R) ps).
  { replace (map (fun r => fmul (mmsd r) (nval r)) rows)
      with (map (fun pr => fmul (fst pr) (snd pr)) (map (fun r => (mmsd r, nval r)) rows))
      by (rewrite map_map; reflexivity).
    rewrite Heq, map_map. reflexivity. }
  assert (E2 : map nval rows = map (fun pid => Some (n pid)) ps).
  { replace (map nval rows) with (map snd (map (fun r => (mmsd r, nval r)) rows))
      by (rewrite map_map; reflexivity).
    rewrite Heq, map_map. reflexivity. }
  rewrite E1, E2, !fmean_map_Some by exact Hne.
  assert (Hk : INR (length ps) <> 0%R).
  { apply not_0_INR. destruct ps; [congruence | discriminate]. }
  unfold fdiv. destruct (Req_dec_T _ 0) as [H0|H0].
  - exfalso. apply Hsum. apply (f_equal (fun v => v * INR (length ps))%R) in H0.
    field_simplify in H0; [exact H0 | exact Hk].
  - f_equal. field. split; [exact Hsum | exact Hk].
Qed.

Ltac eval_R := cbv -[IZR Rdiv Rminus INR Req_dec_T Rlt_dec Rle_dec sqrt pow].

Ltac close_R := try (exfalso; simpl INR in *; (lra || nra)).

Ltac has_sqrt t := match t with context [sqrt _] => idtac end.

(** Settles the real comparisons of a concrete evaluation, leaving those
    that still involve a square root. *)
Ltac decide_R :=
  repeat match goal with
         | |- context [Req_dec_T ?a ?b] =>
             tryif (has_sqrt a || has_sqrt b) then fail else
             destruct (Req_dec_T a b); [close_R | close_R]
         | |- context [Rlt_dec ?a ?b] =>
             tryif (has_sqrt a || has_sqrt b) then fail else
             destruct (Rlt_dec a b); [close_R | close_R]
         | |- context [Rle_dec ?a ?b] =>
             tryif (has_sqrt a || has_sqrt b) then fail else
             destruct (Rle_dec a b); [close_R | close_R]
         end.

Lemma emsd_weighted_mean_witness :
  exists tbl lagt row,
    emsd_by_lag (set_index_frame traj_two) 1 1 3 = Ok tbl /\
    fst (emsd traj_two 1 1 3 false)
      = Ok (EmsdSeries (map (fun '(_, (l, r)) => (l, emsd_v r)) tbl)) /\
    lookup 1 tbl = Some (lagt, row) /\
    emsd_v row = Some (Rsum (map (fun pid => (if pid =? 1 then 1 else 4) * 2) (probes traj_two))
                       / Rsum (map (fun _ => 2) (probes traj_two)))%R.
Proof.
  assert (Hp : probes traj_two = [1; 2]) by reflexivity.
  apply (emsd_weighted_mean traj_two 1 1 3 1 (fun pid => if pid =? 1 then 1 else 4)%R
           (fun _ => 2%R)).
  - rewrite Hp. discriminate.
  - rewrite Hp. simpl. lra.
  - intros pid Hin. rewrite Hp in Hin.
    destruct Hin as [<- | [<- | []]]; do 2 eexists;
      (split; [eval_R; reflexivity|]);
      (split; [eval_R; reflexivity|]);
      eval_R; decide_R; split; f_equal; try f_equal; simpl INR; field.
Defined.

Lemma sqrt_of_sq a c : (0 <= c)%R -> a = (c * c)%R -> sqrt a = c.
Proof. intros Hc ->. apply sqrt_square. exact Hc. Qed.

Ltac eval_sqrt c :=
  repeat match goal with
         | |- context [sqrt ?a] => rewrite (sqrt_of_sq a c) by (lra || ring)
         end.

(** ** Two-point correlation *)

(** C3 fails as stated: two probes one pixel apart along x, both moving by
    (0, 1) from frame 0 to frame 1; at frame 1 the correlator gives
    [para = 0] and [perp = 1], not [para = |disp|^2 = 1] and [perp = 0]. *)
Lemma tp_same_disp_counterexample :
  exists r para perp,
    fst (_tp_corr traj_side 1) = Ok [(1, (r, para, perp))] /\
    para <> 1%R /\ perp <> 0%R.
Proof.
  exists 1%R, 0%R, 1%R. split; [|split; lra].
  eval_R. eval_sqrt 1%R. decide_R. real_eqs.
Qed.

(** C3 (as the code does it): at a frame where two probes at distinct
    positions have the same displacement [(dx, dy)], the correlator's row is
    [R = |R_vec|], [para = (disp . n)^2] and [perp = (disp . p)^2] with
    [n = R_vec / R] and [p = (n_y, -n_x)]; they sum to [|disp|^2], and
    [para = |disp|^2], [perp = 0] hold exactly when [disp] is parallel to the
    separation [R_vec = (x1 - x2, y1 - y2)]. *)
Theorem tp_same_disp_projection x1 y1 x2 y2 dx dy :
  (x1, y1) <> (x2, y2) ->
  let Rx := (x1 - x2)%R in
  let Ry := (y1 - y2)%R in
  exists r para perp,
    tp_row (Some x1, Some y1, Some dx, Some dy) (Some x2, Some y2, Some dx, Some dy)
      = Some (r, para, perp) /\
    r = sqrt (Rx * Rx + Ry * Ry) /\
    para = (((dx * Rx + dy * Ry) / r) ^ 2)%R /\
    perp = (((dx * Ry - dy * Rx) / r) ^ 2)%R /\
    (para + perp = dx ^ 2 + dy ^ 2)%R /\
    ((para = dx ^ 2 + dy ^ 2 /\ perp = 0)%R <-> (dx * Ry - dy * Rx = 0)%R).
Proof.
  intros Hne Rx Ry.
  assert (Hs : (0 < Rx * Rx + Ry * Ry)%R).
  { destruct (Req_dec_T Rx 0) as [E1|E1]; [destruct (Req_dec_T Ry 0) as [E2|E2]|].
    - exfalso. apply Hne. unfold Rx, Ry in *. f_equal; lra.
    - assert (0 < Ry * Ry)%R by (apply Rsqr_pos_lt; exact E2). nra.
    - assert (0 < Rx * Rx)%R by (apply Rsqr_pos_lt; exact E1). nra. }
  set (r := sqrt (Rx * Rx + Ry * Ry)).
  assert (Hr : (0 < r)%R) by (apply sqrt_lt_R0; exact Hs).
  assert (Hrr : (r * r = Rx * Rx + Ry * Ry)%R) by (apply sqrt_sqrt; lra).
  exists r, (((dx * Rx + dy * Ry) / r) ^ 2)%R, (((dx * Ry - dy * Rx) / r) ^ 2)%R.
  split.
  { unfold tp_row, fsqrt, fadd, fsub, sq, fmul, fdiv, fneg. fold Rx Ry.
    destruct (Rlt_dec _ 0) as [H|_]; [lra|]. fold r.
    destruct (Req_dec_T r 0) as [H|_]; [lra|].
    do 2 f_equal; [f_equal|]; field; lra. }
  split; [reflexivity|]. split; [reflexivity|]. split; [reflexivity|].
  assert (Hsum : (((dx * Rx + dy * Ry) / r) ^ 2 + ((dx * Ry - dy * Rx) / r) ^ 2
                  = dx ^ 2 + dy ^ 2)%R).
  { assert (Hab : ((dx * Rx + dy * Ry) ^ 2 + (dx * Ry - dy * Rx) ^ 2
                    = (dx ^ 2 + dy ^ 2) * (r * r))%R) by (rewrite Hrr; ring).
    transitivity (((dx * Rx + dy * Ry) ^ 2 + (dx * Ry - dy * Rx) ^ 2) / (r * r))%R.
    - field. lra.
    - rewrite Hab. field. lra. }
  split; [exact Hsum|]. split.
  - intros [_ H0].
    assert (Hq : ((dx * Ry - dy * Rx) / r = 0)%R) by (simpl in H0; nra).
    replace (dx * Ry - dy * Rx)%R with (((dx * Ry - dy * Rx) / r) * r)%R by (field; lra).
    rewrite Hq. ring.
  - intros H0. assert (Hp : (((dx * Ry - dy * Rx) / r) ^ 2 = 0)%R)
      by (rewrite H0; unfold Rdiv; ring).
    split; [lra | exact Hp].
Qed.

Lemma tp_same_disp_projection_witness :
  exists r para perp,
    tp_row (Some 0%R, Some 0%R, Some 0%R, Some 1%R) (Some 1%R, Some 0%R, Some 0%R, Some 1%R)
      = Some (r, para, perp) /\
    (r = sqrt ((0 - 1) * (0 - 1) + (0 - 0) * (0 - 0)) /\
     para = ((0 * (0 - 1) + 1 * (0 - 0)) / r) ^ 2 /\
     perp = ((0 * (0 - 0) - 1 * (0 - 1)) / r) ^ 2 /\
     para + perp = 0 ^ 2 + 1 ^ 2 /\
     ((para = 0 ^ 2 + 1 ^ 2 /\ perp = 0) <-> 0 * (0 - 0) - 1 * (0 - 1) = 0))%R.
Proof.
  apply (tp_same_disp_projection 0 0 1 0 0 1).
  intros H. injection H as H. lra.
Defined.

(** C6 does not hold: on two probes two pixels apart along x that both move
    by (1, 0), [tp_corr] (with [bins=False]) gives [(R, para, perp) =
    (2, 1, 0)] at [mpp = 1] and [(4, 2, 0)] at [mpp = 2]: [R] scales by
    [mpp] but [para] too scales by [mpp], not by [mpp^2]. *)
Theorem tp_corr_para_scales_linearly :
  fst (tp_corr traj_radial 1 1 [1]) = Ok [(2%R, 1%R, 0%R)] /\
  fst (tp_corr traj_radial 2 1 [1]) = Ok [(4%R, 2%R, 0%R)].
Proof.
  split; eval_R; eval_sqrt 2%R; decide_R; real_eqs.
Qed.

(** ** Dirt *)

(** C4 does not hold: a probe visiting (0, 0) and (2, 0), threshold 3 and
    [mpp = 2]: [2 * mpp = 4 > 3], yet [is_not_dirt] flags it as dirt, since
    it compares the diagonal in pixels with the threshold and ignores
    [mpp]. *)
Theorem is_not_dirt_ignores_mpp :
  is_not_dirt traj_two_points 3 2 = [(1, false)] /\
  is_not_dirt traj_two_points 3 1 = is_not_dirt traj_two_points 3 2.
Proof.
  split; [|reflexivity].
  eval_R. decide_R. eval_sqrt 2%R. decide_R. reflexivity.
Qed.

Lemma reindex_dense_noop_witness :
  reindex 0 (dense 0 [1; 2]) = Ok (dense 0 [1; 2]) /\
  (forall out, reindex 0 (dense 0 [1; 2]) = Ok out ->
     forall k, In k (map fst out) -> 0 <= k <= 0 + Z.of_nat (length [1; 2]) - 1).
Proof. apply (reindex_dense_noop 0 0 [1; 2]). discriminate. Defined.

(** ** The caller's table *)

Lemma set_index_frame_idem traj :
  set_index_frame (set_index_frame traj) = set_index_frame traj.
Proof.
  unfold set_index_frame. rewrite map_map.
  apply map_ext. intros [i r]. reflexivity.
Qed.

Lemma tp_corr_each_table traj lfs :
  snd (tp_corr_each (set_index_frame traj) lfs) = set_index_frame traj.
Proof.
  induction lfs as [|lf lfs IH]; [reflexivity|].
  cbn [tp_corr_each]. unfold _tp_corr at 1. rewrite set_index_frame_idem.
  match goal with
  | |- context [match ?X with Ok _ => _ | Raise _ => _ end] =>
      destruct X as [d|e]; [|reflexivity]
  end.
  destruct (tp_corr_each (set_index_frame traj) lfs) as [rs t] eqn:E.
  simpl in IH |- *. exact IH.
Qed.

(** C9: [imsd], [emsd] and [tp_corr] do not leave the caller's table as it
    was: each call re-indexes it in place by its frame column (its records
    and their column values are kept, its index labels become the frames).
    A table indexed [0] whose only record is at frame 5 comes back from
    [imsd] indexed [5]. *)
Theorem entry_points_reindex_caller_table :
  (forall traj mpp fps max_lagtime st detail lf lfs,
     snd (imsd traj mpp fps max_lagtime st) = set_index_frame traj /\
     snd (emsd traj mpp fps max_lagtime detail) = set_index_frame traj /\
     snd (tp_corr traj mpp fps (lf :: lfs)) = set_index_frame traj /\
     map snd (set_index_frame traj) = map snd traj /\
     map fst (set_index_frame traj) = map (fun '(_, r) => frame r) traj) /\
  snd (imsd traj_unindexed 1 1 100 St_msd) = [(5, mkrec 1 5 0 0)] /\
  snd (emsd traj_unindexed 1 1 100 false) = [(5, mkrec 1 5 0 0)] /\
  [(5, mkrec 1 5 0 0)] <> traj_unindexed.
Proof.
  split; [|split; [reflexivity|split; [reflexivity|discriminate]]].
  intros traj mpp fps max_lagtime st detail lf lfs.
  split; [reflexivity|]. split; [reflexivity|].
  split.
  - unfold tp_corr. cbn [tp_corr_each]. unfold _tp_corr at 1.
    match goal with
  | |- context [match ?X with Ok _ => _ | Raise _ => _ end] =>
      destruct X as [d|e]; [|reflexivity]
  end.
    pose proof (tp_corr_each_table traj lfs) as H.
    destruct (tp_corr_each (set_index_frame traj) lfs) as [rs t].
    simpl in H |- *. exact H.
  - unfold set_index_frame. rewrite !map_map.
    split; apply map_ext; intros [i r]; reflexivity.
Qed.

(** C5 (the code's behaviour): the guard of [vanhove] compares the lag
    with the last frame label, not with the span of frames observed. On
    frames 10 .. 12 (a span of 2) a lag of 5 passes it: no displacement is
    defined, and the call returns a table of 24 bins whose densities are
    all NaN. When the guard does fail (a lag of 13), the error raised is a
    [NameError] on the undefined name [frame], not the intended message. *)
Theorem vanhove_short_span_returns_nan :
  (exists idx, vanhove 1 pos_late 5 1 false (Nbins 24) = Ok (VHFrame idx [repeat None 24])) /\
  vanhove 1 pos_late 13 1 false (Nbins 24) = Raise (NameError "frame").
Proof.
  split; [|reflexivity].
  eexists. eval_R. decide_R. reflexivity.
Qed.

(** ** Drift subtraction *)

Lemma filter_key_In {A} (k : Z) (a : A) (l : list (Z * A)) :
  In (k, a) l -> In a (map snd (filter (fun '(i, _) => i =? k) l)).
Proof.
  intros H. apply in_map_iff. exists (k, a). split; [reflexivity|].
  apply filter_In. split; [exact H | apply Z.eqb_refl].
Qed.

(** Each record of the table does come out with its probe, its frame and
    its position minus the drift at its frame (unchanged where the drift
    has no row at that frame). *)
Lemma subtract_drift_records traj drift out i r v :
  subtract_drift traj (Some drift) = Ok out ->
  In (i, r) traj ->
  ((forall w, ~ In (frame r, w) drift) /\ v = (None, None)) \/ In (frame r, v) drift ->
  In (frame r, {| s_frame := Some (IZR (frame r)); s_probe := Some (IZR (probe r));
                  s_x := sub_fill (Some (x r)) (fst v);
                  s_y := sub_fill (Some (y r)) (snd v) |}) out.
Proof.
  intros Hout Hin Hv. unfold subtract_drift in Hout. simpl in Hout.
  injection Hout as <-.
  assert (Hr : In (frame r, r) (set_index_frame traj))
    by (apply in_map_iff; exists (i, r); split; [reflexivity | exact Hin]).
  apply in_flat_map. exists (frame r). split.
  { apply In_sort_uniq, in_app_iff. left. apply in_map_iff.
    exists (frame r, r). split; [reflexivity | exact Hr]. }
  pose proof (filter_key_In _ _ _ Hr) as Hls.
  destruct (map snd (filter (fun '(i0, _) => i0 =? frame r) (set_index_frame traj)))
    as [|r0 ls] eqn:Els; [contradiction|].
  rewrite <- Els. apply in_flat_map. exists r. split; [rewrite Els; exact Hls|].
  apply in_map_iff. exists v. split; [destruct v; reflexivity|].
  destruct Hv as [[Hno ->] | Hd].
  - destruct (map snd (filter (fun '(i0, _) => i0 =? frame r) drift)) as [|w rs] eqn:Ed.
    + left. reflexivity.
    + exfalso. assert (Hw : In w (map snd (filter (fun '(i0, _) => i0 =? frame r) drift)))
        by (rewrite Ed; left; reflexivity).
      apply in_map_iff in Hw. destruct Hw as [[k w'] [Ew Hk]]. simpl in Ew. subst w'.
      apply filter_In in Hk. destruct Hk as [Hk Ek]. apply Z.eqb_eq in Ek. subst k.
      exact (Hno w Hk).
  - pose proof (filter_key_In _ _ _ Hd) as Hrs.
    match goal with
    | |- In _ (match ?L with [] => _ | _ :: _ => _ end) =>
        assert (HL : In v L) by exact Hrs; destruct L; [contradiction | exact HL]
    end.
Qed.

(** C10 (the code's behaviour): [subtract_drift] is an outer join, so it
    also adds a row for each frame where the drift curve has a value and
    the table has no record; that row has NaN as probe and frame and the
    negated drift as position. One record at frame 0 and a drift curve over
    frames 0 and 1 give two rows. *)
Theorem subtract_drift_adds_drift_rows :
  subtract_drift traj_one (Some drift_two)
  = Ok [(0, mksrow (Some 0%R) (Some 1%R) (Some 4%R) (Some 4%R));
        (1, mksrow None None (Some (-2)%R) (Some (-2)%R))].
Proof. eval_R. real_eqs. Qed.

(** ** More of the reindexer *)

Lemma lookup_In_NoDup {A} (k : Z) (v : A) (l : list (Z * A)) :
  NoDup (map fst l) -> In (k, v) l -> lookup k l = Some v.
Proof.
  induction l as [|[k' v'] l IH]; simpl; [tauto|]. intros Hd Hin.
  inversion Hd as [|? ? Hn Hd']; subst. destruct Hin as [E|H].
  - injection E as -> ->. rewrite Z.eqb_refl. reflexivity.
  - destruct (Z.eqb_spec k' k) as [->|Hne].
    + exfalso. apply Hn. apply in_map_iff. exists (k, v). auto.
    + apply IH; assumption.
Qed.

Lemma lookup_None {A} (k : Z) (l : list (Z * A)) :
  ~ In k (map fst l) -> lookup k l = None.
Proof.
  induction l as [|[k' v'] l IH]; simpl; intros Hn; [reflexivity|].
  destruct (Z.eqb_spec k' k); [subst; tauto|]. apply IH. tauto.
Qed.

Lemma lookup_In {A} (k : Z) (v : A) (l : list (Z * A)) :
  lookup k l = Some v -> In (k, v) l.
Proof.
  induction l as [|[k' v'] l IH]; simpl; [discriminate|].
  destruct (Z.eqb_spec k' k); [intros E; injection E as <-; subst; auto|].
  intros H. right. apply IH, H.
Qed.

Lemma SS_NoDup l : StronglySorted Z.lt l -> NoDup l.
Proof.
  induction l as [|a l IH]; intros H; constructor;
    apply StronglySorted_inv in H as [H1 H2].
  - intros Hin. rewrite Forall_forall in H2. specialize (H2 a Hin). lia.
  - apply IH, H1.
Qed.

Lemma SS_last l d : StronglySorted Z.lt l -> forall k, In k l -> k <= last l d.
Proof.
  induction l as [|a [|b t] IH]; intros H k Hin; [destruct Hin| |].
  - destruct Hin as [<-|[]]. simpl. lia.
  - apply StronglySorted_inv in H as [H1 H2]. change (last (a :: b :: t) d) with (last (b :: t) d).
    destruct Hin as [<-|Hin].
    + inversion H2 as [|? ? Hab]; subst. specialize (IH H1 b (or_introl eq_refl)). lia.
    + apply IH; assumption.
Qed.

Lemma SS_first a l k : StronglySorted Z.lt (a :: l) -> In k (a :: l) -> a <= k.
Proof.
  intros H [<-|Hin]; [lia|]. apply StronglySorted_inv in H as [_ H2].
  rewrite Forall_forall in H2. specialize (H2 k Hin). lia.
Qed.

Lemma Sorted_lt_SS l : Sorted Z.lt l -> StronglySorted Z.lt l.
Proof. apply Sorted_StronglySorted. intros a b c. apply Z.lt_trans. Qed.

(** What [reindex] does on a series whose labels increase. *)
Lemma reindex_sorted {A} (nan : A) (i0 : Z) (v0 : A) (rest : list (Z * A)) :
  Sorted Z.lt (map fst ((i0, v0) :: rest)) ->
  reindex nan ((i0, v0) :: rest)
  = Ok (map (fun k => (k, match lookup k ((i0, v0) :: rest) with Some v => v | None => nan end))
            (arange i0 (1 + last (map fst ((i0, v0) :: rest)) i0))).
Proof.
  intros Hs. apply Sorted_lt_SS, SS_NoDup in Hs.
  unfold reindex. cbv beta iota zeta.
  rewrite (proj2 (nodupb_NoDup _) Hs). reflexivity.
Qed.

(** X1: reindexing a series whose frame labels increase succeeds; its
    labels are every frame from the first to the last; every observed
    frame keeps its value and every frame of a gap gets the missing value. *)
Theorem reindex_fills_gaps {A} (nan : A) (i0 : Z) (v0 : A) (rest : list (Z * A)) :
  Sorted Z.lt (map fst ((i0, v0) :: rest)) ->
  exists out,
    reindex nan ((i0, v0) :: rest) = Ok out /\
    map fst out = arange i0 (1 + last (map fst ((i0, v0) :: rest)) i0) /\
    (forall k v, In (k, v) ((i0, v0) :: rest) -> lookup k out = Some v) /\
    (forall k, i0 <= k <= last (map fst ((i0, v0) :: rest)) i0 ->
       ~ In k (map fst ((i0, v0) :: rest)) -> lookup k out = Some nan).
Proof.
  intros Hs. pose proof (Sorted_lt_SS _ Hs) as Hss. pose proof (SS_NoDup _ Hss) as Hnd.
  eexists. split; [apply reindex_sorted, Hs|].
  split; [rewrite map_map; apply map_id|].
  split.
  - intros k v Hin.
    assert (Hk : In k (map fst ((i0, v0) :: rest)))
      by (apply in_map_iff; exists (k, v); auto).
    rewrite (lookup_map_keys
               (fun k => match lookup k ((i0, v0) :: rest) with Some v => v | None => nan end)).
    + rewrite (lookup_In_NoDup k v) by assumption. reflexivity.
    + apply In_arange. pose proof (SS_first _ _ _ Hss Hk).
      pose proof (SS_last _ i0 Hss _ Hk). cbn [map fst] in *. lia.
  - intros k Hb Hn.
    rewrite (lookup_map_keys
               (fun k => match lookup k ((i0, v0) :: rest) with Some v => v | None => nan end)).
    + rewrite lookup_None by assumption. reflexivity.
    + apply In_arange. lia.
Qed.

Lemma reindex_fills_gaps_witness :
  exists out,
    reindex 0 [(2, 7); (4, 9)] = Ok out /\
    map fst out = arange 2 (1 + last (map fst [(2, 7); (4, 9)]) 2) /\
    (forall k v, In (k, v) [(2, 7); (4, 9)] -> lookup k out = Some v) /\
    (forall k, 2 <= k <= last (map fst [(2, 7); (4, 9)]) 2 ->
       ~ In k (map fst [(2, 7); (4, 9)]) -> lookup k out = Some 0).
Proof.
  apply (reindex_fills_gaps 0 2 7 [(4, 9)]).
  simpl. repeat constructor; lia.
Defined.

(** ** More of [msd] *)

Lemma pos_of_keys traj : map fst (pos_of traj) = map fst traj.
Proof. unfold pos_of. rewrite map_map. apply map_ext. intros [i r]. reflexivity. Qed.

(** X2: [msd] raises [IndexError] on an empty trajectory, [ValueError]
    when two records share an index label (pandas cannot reindex them),
    and [ValueError] when [max_lagtime <= 0] (no lag, so [pd.concat] gets
    an empty list). *)
Theorem msd_errors traj mpp fps max_lagtime detail :
  (traj = [] -> msd traj mpp fps max_lagtime detail = Raise IndexError) /\
  (~ NoDup (map fst traj) -> msd traj mpp fps max_lagtime detail = Raise ValueError) /\
  (traj <> [] -> NoDup (map fst traj) -> max_lagtime <= 0 ->
     msd traj mpp fps max_lagtime detail = Raise ValueError).
Proof.
  split; [intros ->; reflexivity|].
  pose proof (pos_of_keys traj) as Hk.
  split.
  - intros Hn. unfold msd.
    destruct (pos_of traj) as [|[i0 v0] rest] eqn:E.
    + exfalso. apply Hn. simpl in Hk. rewrite <- Hk. constructor.
    + unfold reindex. cbv beta iota zeta.
      destruct (nodupb _) eqn:En; [|reflexivity].
      apply nodupb_NoDup in En. exfalso. apply Hn. rewrite <- Hk. exact En.
  - intros Hne Hd Hml. unfold msd.
    assert (Hl : msd_lagtimes traj max_lagtime = []).
    { unfold msd_lagtimes, arange. replace (Z.to_nat _) with 0%nat by lia. reflexivity. }
    destruct (pos_of traj) as [|[i0 v0] rest] eqn:E.
    + exfalso. apply Hne. destruct traj; [reflexivity | discriminate].
    + unfold reindex. cbv beta iota zeta.
      destruct (nodupb _) eqn:En.
      * cbn [bind]. rewrite Hl. reflexivity.
      * exfalso. assert (Hd' : NoDup (map fst ((i0, v0) :: rest))) by (rewrite Hk; exact Hd).
        apply nodupb_NoDup in Hd'.
        assert (En' : nodupb (map fst ((i0, v0) :: rest)) = false) by exact En. congruence.
Qed.

Lemma zipWith_app {A B C} (f : A -> B -> C) a1 a2 b1 b2 :
  length a1 = length b1 -> zipWith f (a1 ++ a2) (b1 ++ b2) = zipWith f a1 b1 ++ zipWith f a2 b2.
Proof.
  revert b1. induction a1 as [|a a1 IH]; intros [|b b1] H; simpl in *; try discriminate; auto.
  f_equal. apply IH. lia.
Qed.

Lemma zipWith_length {A B C} (f : A -> B -> C) l1 l2 :
  length (zipWith f l1 l2) = Nat.min (length l1) (length l2).
Proof.
  revert l2. induction l1 as [|a l1 IH]; intros [|b l2]; simpl; auto.
Qed.

Lemma somes_app l1 l2 : somes (l1 ++ l2) = somes l1 ++ somes l2.
Proof. induction l1 as [|[v|] l1 IH]; simpl; congruence. Qed.

Definition both_def (p : flt * flt) : Prop := exists u w, p = (Some u, Some w).

Lemma fcount_disp_nan (a : list (flt * flt)) m :
  fcount (map fst (zipWith (fun '(a, b) '(c, d) => (fsub a c, fsub b d)) a
                           (repeat (None, None) m))) = 0%nat.
Proof.
  revert m. induction a as [|[u w] a IH]; intros [|m]; simpl; auto.
  destruct u; apply IH.
Qed.

Lemma fcount_disp_def (a b : list (flt * flt)) :
  Forall both_def a -> Forall both_def b -> length a = length b ->
  fcount (map fst (zipWith (fun '(a, b) '(c, d) => (fsub a c, fsub b d)) a b)) = length a.
Proof.
  revert b. induction a as [|p a IH]; intros [|q b] Ha Hb Hl; simpl in *; try discriminate; auto.
  inversion Ha as [|? ? (u & w & ->) Ha']; inversion Hb as [|? ? (u' & w' & ->) Hb']; subst.
  unfold fcount in *. simpl. f_equal. apply IH; auto.
Qed.

(** The number of x displacements that [msd] averages at lag [lt] on a
    series observed at every frame: [n - lt]. *)
Lemma fcount_disp_dense (vs : list (flt * flt)) lt :
  Forall both_def vs -> 0 <= lt <= Z.of_nat (length vs) ->
  fcount (map fst (disp_at vs lt)) = (length vs - Z.to_nat lt)%nat.
Proof.
  intros Hv Hlt. unfold disp_at, shift_vals. cbv zeta.
  replace (0 <=? lt) with true by (symmetry; apply Z.leb_le; lia).
  match goal with |- context [repeat _ ?m] => replace m with (Z.to_nat lt) by (unfold flt in *; lia) end.
  rewrite <- (firstn_skipn (Z.to_nat lt) vs) at 1.
  rewrite zipWith_app by (rewrite length_firstn, repeat_length; lia).
  unfold fcount. rewrite map_app, somes_app, length_app.
  fold (fcount (map fst (zipWith (fun '(a, b) '(c, d) => (fsub a c, fsub b d))
                           (firstn (Z.to_nat lt) vs) (repeat (None, None) (Z.to_nat lt))))).
  rewrite fcount_disp_nan.
  pose proof (fcount_disp_def (skipn (Z.to_nat lt) vs)
                (firstn (length vs - Z.to_nat lt) vs)) as H2.
  unfold fcount, flt in H2 |- *. rewrite H2.
  - rewrite length_skipn. lia.
  - apply Forall_forall. intros p Hp. rewrite Forall_forall in Hv. apply Hv.
    rewrite <- (firstn_skipn (Z.to_nat lt) vs). apply in_or_app. right. exact Hp.
  - apply Forall_forall. intros p Hp. rewrite Forall_forall in Hv. apply Hv.
    rewrite <- (firstn_skipn (length vs - Z.to_nat lt) vs). apply in_or_app. left. exact Hp.
  - rewrite length_skipn, length_firstn. lia.
Qed.

Lemma pos_of_combine ks recs :
  pos_of (combine ks recs) = combine ks (map (fun r => (Some (x r), Some (y r))) recs).
Proof.
  revert recs. induction ks as [|k ks IH]; intros [|r recs]; simpl; auto.
  f_equal. apply IH.
Qed.

Lemma dense_length {A} f0 (vals : list A) : length (dense f0 vals) = length vals.
Proof. unfold dense. rewrite length_combine, arange_length. lia. Qed.

Lemma map_snd_combine {A B} (l1 : list A) (l2 : list B) :
  length l1 = length l2 -> map snd (combine l1 l2) = l2.
Proof.
  revert l2. induction l1 as [|a l1 IH]; intros [|b l2] H; simpl in *; try discriminate; auto.
  f_equal. apply IH. lia.
Qed.

Lemma reindex_dense_eq {A} (nan : A) (f0 : Z) (vals : list A) :
  vals <> [] -> reindex nan (dense f0 vals) = Ok (dense f0 vals).
Proof.
  intros Hne.
  set (n := Z.of_nat (length vals)).
  assert (Hn : 1 <= n) by (destruct vals; [congruence|]; unfold n; simpl length; lia).
  assert (Hlen : length (arange f0 (f0 + n)) = length vals)
    by (rewrite arange_length; unfold n; lia).
  assert (Hkeys : map fst (dense f0 vals) = arange f0 (f0 + n))
    by (apply map_fst_combine; exact Hlen).
  assert (Ed : exists v0 rest, dense f0 vals = (f0, v0) :: rest).
  { unfold dense. destruct vals as [|v0 vs]; [congruence|].
    rewrite arange_cons by lia. exists v0, (combine (arange (f0 + 1) (f0 + n)) vs).
    reflexivity. }
  destruct Ed as (v0 & rest & Ed).
  replace (reindex nan (dense f0 vals)) with (reindex nan ((f0, v0) :: rest))
    by now rewrite Ed.
  unfold reindex. rewrite <- Ed, Hkeys.
  assert (Hlast : last (arange f0 (f0 + n)) f0 = f0 + n - 1).
  { assert (E : f0 + n = f0 + n - 1 + 1) by lia. rewrite E at 1.
    rewrite arange_snoc by lia. apply last_last. }
  rewrite Hlast. replace (1 + (f0 + n - 1)) with (f0 + n) by lia.
  assert (Hnd : nodupb (arange f0 (f0 + n)) = true)
    by (apply nodupb_NoDup, arange_NoDup).
  rewrite Hnd. f_equal. rewrite <- Hkeys. apply lookup_all.
  rewrite Hkeys. apply arange_NoDup.
Qed.

Lemma In_removelast {A} (a : A) l : In a (removelast l) -> In a l.
Proof.
  induction l as [|b [|c l] IH]; [simpl; tauto | simpl; tauto |].
  change (removelast (b :: c :: l)) with (b :: removelast (c :: l)).
  intros [->|H]; [left; reflexivity | right; apply IH, H].
Qed.

Lemma combine_map_r {A B} (f : A -> B) (l : list A) :
  combine l (map f l) = map (fun a => (a, f a)) l.
Proof. induction l as [|a l IH]; simpl; congruence. Qed.

(** X3: with [detail], the [N] column of [msd] on a trajectory observed at
    every frame ([n] records) is [2 (n - lt) / (lt + 1)] at lag [lt]: the
    division by [Series(lagtimes)] aligns on the labels [0 .. ], so each lag
    count is divided by the next lag, not by itself. *)
Theorem msd_N_next_lag (f0 : Z) (recs : list rec) mpp fps max_lagtime tbl lt row :
  msd (dense f0 recs) mpp fps max_lagtime true = Ok tbl -> In (lt, row) tbl ->
  mN row = Some (Some (2 * (INR (length recs - Z.to_nat lt) / IZR (1 + lt)))%R).
Proof.
  intros Hm Hin.
  assert (Hne : recs <> []).
  { intros ->. unfold dense in Hm. rewrite combine_nil in Hm. discriminate. }
  pose proof (msd_keys _ _ _ _ _ _ Hm) as Hk.
  assert (Hlt : In lt (map fst tbl)) by (apply in_map_iff; exists (lt, row); auto).
  rewrite Hk, In_arange, dense_length in Hlt.
  set (M := Z.min max_lagtime (Z.of_nat (length recs))) in *.
  assert (Hl : msd_lagtimes (dense f0 recs) max_lagtime = map (fun k => 1 + k) (arange 0 M))
    by (unfold msd_lagtimes; rewrite dense_length; reflexivity).
  unfold msd in Hm. rewrite Hl in Hm. unfold dense in Hm. rewrite pos_of_combine in Hm.
  unfold flt in *.
  set (g := fun r => (Some (x r), Some (y r))) in *.
  assert (Hvne : map g recs <> []) by (destruct recs; [congruence | discriminate]).
  replace (Z.of_nat (length recs)) with (Z.of_nat (length (map g recs))) in Hm
    by (rewrite length_map; reflexivity).
  fold (dense f0 (map g recs)) in Hm.
  rewrite (reindex_dense_eq _ _ _ Hvne) in Hm. cbn [bind] in Hm.
  rewrite pd_concat_singletons in Hm.
  2: { unfold arange. replace (Z.to_nat (M - 0)) with (S (Z.to_nat (M - 1))) by lia. discriminate. }
  cbn [bind] in Hm. injection Hm as <-.
  apply In_removelast in Hin. rewrite map_map in Hin.
  apply in_map_iff in Hin as (lt' & E & _). injection E as -> <-.
  cbn [msd_row_at mN]. f_equal.
  assert (Hvs : map snd (dense f0 (map g recs)) = map g recs)
    by (apply map_snd_combine; rewrite arange_length, length_map; lia).
  rewrite Hvs.
  rewrite fcount_disp_dense.
  2: { apply Forall_forall. intros p Hp. apply in_map_iff in Hp as (r & <- & _).
       exists (x r), (y r). reflexivity. }
  2: { rewrite length_map. lia. }
  rewrite length_map. unfold N_col.
  rewrite length_map, arange_length. replace (Z.of_nat (Z.to_nat (M - 0))) with M by lia.
  rewrite combine_map_r, (lookup_map_keys (fun k => 1 + k)) by (apply In_arange; lia).
  unfold fmul, fdiv. destruct (Req_dec_T (IZR (1 + lt)) 0) as [E|E].
  - apply eq_IZR in E. lia.
  - reflexivity.
Qed.

Lemma msd_N_next_lag_witness :
  exists tbl row,
    msd (dense 0 [mkrec 1 0 0 0; mkrec 1 1 1 0; mkrec 1 2 2 0]) 1 1 3 true = Ok tbl /\
    In (1, row) tbl /\
    mN row = Some (Some (2 * (INR (length [mkrec 1 0 0 0; mkrec 1 1 1 0; mkrec 1 2 2 0]
                                   - Z.to_nat 1) / IZR (1 + 1)))%R).
Proof.
  do 2 eexists.
  split; [eval_R; reflexivity|]. split; [simpl; left; reflexivity|].
  eapply (msd_N_next_lag 0 [mkrec 1 0 0 0; mkrec 1 1 1 0; mkrec 1 2 2 0] 1 1 3).
  - eval_R. reflexivity.
  - simpl. left. reflexivity.
Defined.

(** A position whose x and y are both defined or both NaN. *)
Definition paired (p : flt * flt) : Prop :=
  match p with
  | (Some _, Some _) | (None, None) => True
  | _ => False
  end.

Lemma In_zipWith {A B C} (f : A -> B -> C) l1 l2 c :
  In c (zipWith f l1 l2) -> exists a b, In a l1 /\ In b l2 /\ c = f a b.
Proof.
  revert l2. induction l1 as [|a l1 IH]; intros [|b l2]; simpl; try tauto.
  intros [<-|H]; [exists a, b; auto|].
  destruct (IH _ H) as (a' & b' & H1 & H2 & ->). exists a', b'. auto.
Qed.

Lemma In_shift_vals {A} (nan : A) n vs a :
  In a (shift_vals nan n vs) -> a = nan \/ In a vs.
Proof.
  unfold shift_vals. destruct (0 <=? n); rewrite in_app_iff;
    intros [H|H]; try (apply repeat_spec in H; auto).
  - right. rewrite <- (firstn_skipn (length vs - Z.to_nat n) vs). apply in_or_app. left. exact H.
  - right. rewrite <- (firstn_skipn (Z.to_nat (- n)) vs). apply in_or_app. right. exact H.
Qed.

Lemma disp_at_paired vs lt :
  Forall paired vs -> Forall paired (disp_at vs lt).
Proof.
  intros Hv. rewrite Forall_forall in *. intros c Hc.
  apply In_zipWith in Hc as ([a b] & [c' d] & Ha & Hb & ->).
  apply Hv in Ha. apply In_shift_vals in Hb as [E|Hb].
  - injection E as -> ->. destruct a, b; simpl in *; tauto.
  - apply Hv in Hb. destruct a, b, c', d; simpl in *; tauto.
Qed.

Lemma somes_sq_paired d :
  Forall paired d ->
  length (somes (map sq (map fst d))) = length (somes (map sq (map snd d))).
Proof.
  induction d as [|[a b] d IH]; intros H; [reflexivity|].
  inversion H as [|? ? Hp Hd]; subst. destruct a, b; simpl in Hp |- *; try tauto.
  all: first [apply IH, Hd | f_equal; apply IH, Hd].
Qed.

Lemma reindex_pos_paired traj pos :
  reindex (None, None) (pos_of traj) = Ok pos -> Forall paired (map snd pos).
Proof.
  unfold reindex. destruct (pos_of traj) as [|[i0 v0] rest] eqn:E; [discriminate|].
  destruct (nodupb _); [|discriminate]. intros H. injection H as <-.
  rewrite map_map. apply Forall_forall. intros p Hp.
  apply in_map_iff in Hp as (k & <- & _). cbn [snd].
  match goal with
  | |- paired (match ?X with Some v => v | None => _ end) =>
      destruct X as [v|] eqn:El0; [|exact I]
  end.
  assert (El : lookup k ((i0, v0) :: rest) = Some v) by exact El0.
  apply lookup_In in El. rewrite <- E in El. unfold pos_of in El.
  apply in_map_iff in El as ([i r] & Er & _). injection Er as _ <-. exact I.
Qed.

(** X4: in every row of [msd], the column [msd] is [<x^2> + <y^2>]; the
    three are NaN together (x and y of a position are missing together). *)
Theorem msd_is_sum_of_squares traj mpp fps max_lagtime detail tbl lt row :
  msd traj mpp fps max_lagtime detail = Ok tbl -> In (lt, row) tbl ->
  mmsd row = fadd (mx2 row) (my2 row).
Proof.
  intros Hm Hin. unfold msd in Hm.
  destruct (reindex (None, None) (pos_of traj)) as [pos|e] eqn:Er; [|discriminate].
  cbn [bind] in Hm.
  destruct (pd_concat _) as [disp|e] eqn:Ec; [|discriminate]. cbn [bind] in Hm.
  injection Hm as <-. apply In_removelast in Hin.
  apply in_map_iff in Hin as ([lt' d] & E & Hd). injection E as -> <-.
  assert (Hdp : Forall paired d).
  { assert (Hc : disp = concat (map (fun lt => [(lt, disp_at (map snd pos) lt)])
                                    (msd_lagtimes traj max_lagtime))).
    { unfold pd_concat in Ec. destruct (map _ _); [discriminate|].
      injection Ec as Ec. symmetry. exact Ec. }
    rewrite Hc in Hd. apply in_concat in Hd as (blk & Hb & Hd).
    apply in_map_iff in Hb as (l & <- & _). destruct Hd as [E|[]]. injection E as _ <-.
    apply disp_at_paired. eapply reindex_pos_paired; exact Er. }
  pose proof (somes_sq_paired _ Hdp) as Hlen.
  cbn [msd_row_at mmsd mx2 my2]. unfold fmean, fsum.
  destruct (somes (map sq (map fst d))) as [|a l] eqn:E1;
    destruct (somes (map sq (map snd d))) as [|b l'] eqn:E2; simpl in Hlen; try discriminate.
  - reflexivity.
  - simpl. f_equal. ring.
Qed.

Lemma msd_is_sum_of_squares_witness :
  exists tbl row,
    msd traj_line 1 1 3 false = Ok tbl /\ In (1, row) tbl /\
    mmsd row = fadd (mx2 row) (my2 row).
Proof.
  do 2 eexists.
  split; [eval_R; reflexivity|]. split; [simpl; left; reflexivity|].
  eapply (msd_is_sum_of_squares traj_line 1 1 3 false).
  - eval_R. reflexivity.
  - simpl. left. reflexivity.
Defined.

(** ** More of [imsd] and [emsd] *)

Lemma msd_nonpos_lag traj mpp fps max_lagtime detail :
  traj <> [] -> max_lagtime <= 0 -> msd traj mpp fps max_lagtime detail = Raise ValueError.
Proof.
  intros Hne Hml. pose proof (pos_of_keys traj) as Hk. unfold msd.
  assert (Hl : msd_lagtimes traj max_lagtime = []).
  { unfold msd_lagtimes, arange. replace (Z.to_nat _) with 0%nat by lia. reflexivity. }
  destruct (pos_of traj) as [|[i0 v0] rest] eqn:E.
  - exfalso. apply Hne. destruct traj; [reflexivity | discriminate].
  - unfold reindex. cbv beta iota zeta.
    destruct (nodupb _); [|reflexivity].
    cbn [bind]. rewrite Hl. reflexivity.
Qed.

Lemma group_nonempty traj p : In p (probes traj) -> group traj p <> [].
Proof.
  unfold probes. rewrite In_sort_uniq, in_map_iff. intros ([i r] & Ep & Hin) Hg.
  assert (Hr : In (i, r) (group traj p)).
  { apply filter_In. split; [exact Hin | apply Z.eqb_eq; exact Ep]. }
  rewrite Hg in Hr. destruct Hr.
Qed.

Lemma mapR_msd_nonpos traj mpp fps max_lagtime detail :
  max_lagtime <= 0 ->
  mapR (fun pid => msd (group traj pid) mpp fps max_lagtime detail) (probes traj)
  = match probes traj with [] => Ok [] | _ => Raise ValueError end.
Proof.
  intros Hml. destruct (probes traj) as [|p ps] eqn:Ep; [reflexivity|].
  simpl. rewrite msd_nonpos_lag; [reflexivity | | exact Hml].
  apply group_nonempty. rewrite Ep. left. reflexivity.
Qed.

(** X5: [imsd] and [emsd] raise [ValueError] on an empty table (no probe,
    so [pd.concat] gets an empty list) and when [max_lagtime <= 0] (every
    probe's [msd] has no lag). *)
Theorem imsd_emsd_value_errors traj mpp fps max_lagtime st detail :
  traj = [] \/ max_lagtime <= 0 ->
  fst (imsd traj mpp fps max_lagtime st) = Raise ValueError /\
  fst (emsd traj mpp fps max_lagtime detail) = Raise ValueError.
Proof.
  intros [-> | Hml]; [split; reflexivity|].
  unfold imsd, emsd, emsd_by_lag. cbn [fst].
  rewrite !mapR_msd_nonpos by exact Hml.
  destruct (probes (set_index_frame traj)); split; reflexivity.
Qed.

Lemma imsd_emsd_value_errors_witness :
  fst (imsd traj_two 1 1 0 St_msd) = Raise ValueError /\
  fst (emsd traj_two 1 1 0 false) = Raise ValueError.
Proof. apply (imsd_emsd_value_errors traj_two 1 1 0 St_msd false). right. lia. Defined.

(** ** More of [tp_corr] *)

Lemma reindex_nonempty_error {A} (nan : A) pos e :
  pos <> [] -> reindex nan pos = Raise e -> e = ValueError.
Proof.
  unfold reindex. destruct pos as [|[i0 v0] rest]; [congruence|].
  intros _. destruct (nodupb _); [discriminate|]. congruence.
Qed.

Lemma tp_pos_error ptraj lf e :
  ptraj <> [] -> tp_pos ptraj lf = Raise e -> e = ValueError.
Proof.
  unfold tp_pos. destruct (reindex _ _) as [pos|e'] eqn:E; [discriminate|].
  intros Hne H. injection H as <-. eapply reindex_nonempty_error; [|exact E].
  unfold pos_of. destruct ptraj; [congruence | discriminate].
Qed.

Lemma _tp_corr_few_probes traj lf :
  (length (probes traj) < 2)%nat -> fst (_tp_corr traj lf) = Raise ValueError.
Proof.
  intros Hl. unfold _tp_corr. cbn [fst]. rewrite probes_set_index.
  destruct (probes traj) as [|p [|q ps]] eqn:Ep; simpl in Hl; try lia.
  - reflexivity.
  - cbn [mapR]. destruct (tp_pos (group (set_index_frame traj) p) lf) as [d|e] eqn:Et.
    + simpl. rewrite Z.ltb_irrefl. reflexivity.
    + cbn [bind]. f_equal. eapply tp_pos_error; [|exact Et].
      apply group_nonempty. rewrite probes_set_index, Ep. left. reflexivity.
Qed.

(** X6: [tp_corr] raises [ValueError] when the table has fewer than two
    probes (there is no pair, so [pd.concat] gets an empty list) and when
    [lagframes] is empty. *)
Theorem tp_corr_value_errors traj mpp fps lagframes :
  (length (probes traj) < 2)%nat \/ lagframes = [] ->
  fst (tp_corr traj mpp fps lagframes) = Raise ValueError.
Proof.
  intros [Hl | ->]; [|reflexivity].
  unfold tp_corr. destruct lagframes as [|lf lfs]; [reflexivity|].
  cbn [tp_corr_each].
  pose proof (_tp_corr_few_probes traj lf Hl) as H.
  destruct (_tp_corr traj lf) as [r t]. cbn [fst] in H. subst r. reflexivity.
Qed.

Lemma tp_corr_value_errors_witness :
  fst (tp_corr traj_line 1 1 [1]) = Raise ValueError.
Proof. apply (tp_corr_value_errors traj_line 1 1 [1]). left. simpl. lia. Defined.

Lemma pd_concat_Ok {A} (l : list (list A)) D : pd_concat l = Ok D -> D = concat l.
Proof. destruct l; [discriminate|]. intros H. injection H as <-. reflexivity. Qed.

Lemma fdiv_zero a : fdiv a (Some 0%R) = None.
Proof. destruct a; simpl; [destruct (Req_dec_T 0 0); [reflexivity | congruence] | reflexivity]. Qed.

Lemma fmul_None_r a : fmul a None = None.
Proof. destruct a; reflexivity. Qed.

(** A pair's row survives [dropna()] only at a positive separation: at
    [R = 0] the unit vector [R_x / R] is NaN. *)
Lemma tp_row_R_pos r1 r2 r a b : tp_row r1 r2 = Some (r, a, b) -> (0 < r)%R.
Proof.
  destruct r1 as [[[x1 y1] dx1] dy1], r2 as [[[x2 y2] dx2] dy2].
  unfold tp_row. cbv beta iota zeta.
  destruct (fsqrt (fadd (sq (fsub x1 x2)) (sq (fsub y1 y2)))) as [r'|] eqn:Es;
    [|discriminate].
  assert (Hr' : (0 <= r')%R).
  { unfold fsqrt in Es. destruct (fadd _ _); [|discriminate].
    destruct (Rlt_dec _ 0); [discriminate|]. injection Es as <-. apply sqrt_pos. }
  destruct (Req_dec_T r' 0) as [E0|E0].
  - subst r'. rewrite !fdiv_zero, !fmul_None_r. simpl. discriminate.
  - intros H.
    repeat match type of H with
           | context [match ?X with Some _ => _ | None => _ end] =>
               destruct X; try discriminate
           end.
    injection H as <- _ _. lra.
Qed.

Lemma _tp_corr_rows traj lf D :
  fst (_tp_corr traj lf) = Ok D -> forall f r a b, In (f, (r, a, b)) D -> (0 < r)%R.
Proof.
  unfold _tp_corr. cbn [fst].
  destruct (mapR _ _) as [disps|e]; [|discriminate]. cbn [bind].
  destruct (pd_concat disps) as [joined|e]; [|discriminate]. cbn [bind].
  intros H. apply pd_concat_Ok in H. subst D. intros f r a b Hin.
  apply in_concat in Hin as (l & Hl & Hin).
  apply in_map_iff in Hl as ([p1 p2] & <- & _).
  apply in_flat_map in Hin as (f' & _ & Hin).
  match goal with
  | H : In _ (match ?X with Some v => _ | None => _ end) |- _ =>
      destruct X as [v|] eqn:Et; [|destruct H]
  end.
  destruct Hin as [E|[]]. injection E as -> ->. eapply tp_row_R_pos; exact Et.
Qed.

Lemma tp_corr_each_rows traj lfs ds :
  fst (tp_corr_each traj lfs) = Ok ds ->
  forall D, In D ds -> forall f r a b, In (f, (r, a, b)) D -> (0 < r)%R.
Proof.
  revert traj ds. induction lfs as [|lf lfs IH]; intros traj ds H.
  - injection H as <-. intros D [].
  - cbn [tp_corr_each] in H.
    destruct (_tp_corr traj lf) as [res t] eqn:E1.
    destruct res as [d|e]; [|discriminate].
    destruct (tp_corr_each t lfs) as [rs t'] eqn:E2.
    destruct rs as [ds'|e]; [|discriminate].
    cbn in H. injection H as <-. intros D [<-|HD].
    + apply (_tp_corr_rows traj lf). rewrite E1. reflexivity.
    + apply (IH t ds'); [rewrite E2; reflexivity | exact HD].
Qed.

(** X7: every row of [tp_corr] has a positive separation [R] when
    [mpp > 0]: a pair at the same position gives NaN and is dropped. *)
Theorem tp_corr_R_positive traj mpp fps lagframes rows :
  (0 < mpp)%R -> fst (tp_corr traj mpp fps lagframes) = Ok rows ->
  forall r a b, In (r, a, b) rows -> (0 < r)%R.
Proof.
  intros Hm. unfold tp_corr.
  destruct (tp_corr_each traj lagframes) as [res t] eqn:E.
  destruct res as [ds|e]; [|discriminate]. cbn [fst bind].
  destruct (pd_concat ds) as [D|e] eqn:Eds; [|discriminate].
  apply pd_concat_Ok in Eds. subst D. cbn [bind].
  intros H. injection H as <-. intros r a b Hin.
  apply in_map_iff in Hin as ([f [[r' a'] b']] & Er & Hin). injection Er as <- _ _.
  apply in_concat in Hin as (D & HD & Hin).
  apply Rmult_lt_0_compat; [exact Hm|].
  eapply (tp_corr_each_rows traj lagframes ds); [rewrite E; reflexivity | exact HD | exact Hin].
Qed.

Lemma tp_corr_R_positive_witness :
  fst (tp_corr traj_radial 1 1 [1]) = Ok [(2%R, 1%R, 0%R)] /\
  (forall r a b, In (r, a, b) [(2%R, 1%R, 0%R)] -> (0 < r)%R).
Proof.
  assert (H : fst (tp_corr traj_radial 1 1 [1]) = Ok [(2%R, 1%R, 0%R)])
    by (eval_R; eval_sqrt 2%R; decide_R; real_eqs).
  split; [exact H|].
  apply (tp_corr_R_positive traj_radial 1 1 [1]); [lra | exact H].
Defined.

(** ** [tp_msd] *)

Lemma arange_SS a b : StronglySorted Z.lt (arange a b).
Proof.
  remember (Z.to_nat (b - a)) as n eqn:En. revert a En.
  induction n as [|n IH]; intros a En.
  - unfold arange. rewrite <- En. constructor.
  - rewrite arange_cons by lia. constructor.
    + apply IH. lia.
    + apply Forall_forall. intros k Hk. apply In_arange in Hk. lia.
Qed.

Lemma sort_uniq_SS l : StronglySorted Z.lt l -> sort_uniq l = l.
Proof.
  induction l as [|a l IH]; intros H; [reflexivity|].
  apply StronglySorted_inv in H as [H1 H2]. simpl. fold (sort_uniq l). rewrite IH by exact H1.
  destruct l as [|h t]; [reflexivity|]. simpl.
  inversion H2 as [|? ? Hah]; subst. replace (a <? h) with true by (symmetry; apply Z.ltb_lt; lia).
  reflexivity.
Qed.

Lemma group_mean_distinct (s : list (Z * flt)) :
  NoDup (map fst s) ->
  map (fun k => (k, fmean (map snd (filter (fun '(l, _) => l =? k) s)))) (map fst s)
  = map (fun '(k, v) => (k, fmean [v])) s.
Proof.
  intros Hd. rewrite map_map. apply map_ext_in. intros [k v] Hin. cbn [fst].
  rewrite (filter_key_unique k v) by (try apply lookup_In_NoDup; assumption).
  reflexivity.
Qed.

Lemma combine_map_snd {A B C} (f : B -> C) (l1 : list A) (l2 : list B) :
  combine l1 (map f l2) = map (fun '(a, b) => (a, f b)) (combine l1 l2).
Proof.
  revert l2. induction l1 as [|a l1 IH]; intros [|b l2]; simpl; auto. f_equal. apply IH.
Qed.

Lemma fmean_single v : fmean [Some v] = Some v.
Proof. unfold fmean. simpl. f_equal. field. Qed.

(** X8: [tp_msd] does not average over the pairs of a lag: [tp_corr]'s
    [ignore_index=True] numbers its rows [0 .. n-1], so [groupby(level=0)]
    sees one row per label; [tp_msd] gives one value [2/a * R * para] per
    row of [tp_corr], labelled by the row number divided by [fps]. At
    [a = 0] it raises [ZeroDivisionError]. *)
Theorem tp_msd_one_value_per_row traj mpp fps a lagframes D :
  fst (tp_corr traj mpp 1 lagframes) = Ok D ->
  (a <> 0%R ->
   fst (tp_msd traj mpp fps a lagframes)
   = Ok (map (fun '(k, (r, para, _)) => (fdiv (Some (IZR k)) (Some fps), Some (2 / a * (r * para))%R))
             (combine (arange 0 (Z.of_nat (length D))) D))) /\
  (a = 0%R -> fst (tp_msd traj mpp fps a lagframes) = Raise ZeroDivisionError).
Proof.
  intros HD. unfold tp_msd.
  destruct (tp_corr traj mpp 1 lagframes) as [res t]. cbn [fst] in HD |- *. subst res.
  cbn [bind]. split; intros Ha.
  - destruct (Req_dec_T a 0) as [E|_]; [contradiction|]. f_equal.
    unfold group_mean_by_label.
    match goal with |- context [combine ?K0 ?V0] => set (K := K0); set (V := V0) end.
    assert (HK : length K = length V)
      by (unfold K, V; rewrite arange_length, length_map; lia).
    unfold flt in *. rewrite (map_fst_combine _ _ HK).
    unfold K at 1. rewrite sort_uniq_SS by apply arange_SS. fold K.
    rewrite <- (map_fst_combine _ _ HK) at 1.
    rewrite group_mean_distinct by (unfold flt; rewrite (map_fst_combine _ _ HK); apply arange_NoDup).
    unfold V. rewrite combine_map_snd, !map_map. apply map_ext. intros [k [[r p] q]].
    rewrite fmean_single. reflexivity.
  - destruct (Req_dec_T a 0) as [_|E]; [reflexivity | contradiction].
Qed.

Lemma tp_msd_one_value_per_row_witness :
  fst (tp_corr traj_three 1 1 [1]) = Ok [(2%R, 1%R, 0%R); (4%R, 1%R, 0%R); (2%R, 1%R, 0%R)] /\
  (2%R <> 0%R ->
   fst (tp_msd traj_three 1 1 2 [1])
   = Ok (map (fun '(k, (r, para, _)) => (fdiv (Some (IZR k)) (Some 1%R), Some (2 / 2 * (r * para))%R))
             (combine (arange 0 (Z.of_nat (length [(2%R, 1%R, 0%R); (4%R, 1%R, 0%R); (2%R, 1%R, 0%R)])))
                      [(2%R, 1%R, 0%R); (4%R, 1%R, 0%R); (2%R, 1%R, 0%R)]))) /\
  (2%R = 0%R -> fst (tp_msd traj_three 1 1 2 [1]) = Raise ZeroDivisionError).
Proof.
  assert (H : fst (tp_corr traj_three 1 1 [1])
              = Ok [(2%R, 1%R, 0%R); (4%R, 1%R, 0%R); (2%R, 1%R, 0%R)]).
  { eval_R. eval_sqrt 2%R. eval_sqrt 4%R. decide_R. real_eqs. }
  split; [exact H|].
  apply (tp_msd_one_value_per_row traj_three 1 1 2 [1] _ H).
Defined.

(** ** [is_not_dirt] *)

Lemma lookup_map_pairs {B} (G : Z -> Z * B) (k : Z) (keys : list Z) :
  (forall l, fst (G l) = l) ->
  lookup k (map G keys) = if in_dec Z.eq_dec k keys then Some (snd (G k)) else None.
Proof.
  intros HG. induction keys as [|l keys IH]; [reflexivity|]. simpl.
  destruct (G l) as [l' v] eqn:E. assert (l' = l) by (rewrite <- (HG l), E; reflexivity). subst l'.
  destruct (Z.eqb_spec l k) as [->|Hne].
  - rewrite E. destruct (Z.eq_dec k k); [reflexivity | contradiction].
  - rewrite IH. destruct (in_dec Z.eq_dec k keys), (Z.eq_dec l k); try contradiction; reflexivity.
Qed.

Lemma list_max_min_const (l : list R) (c : R) :
  l <> [] -> (forall v, In v l -> v = c) -> list_max l = c /\ list_min l = c.
Proof.
  destruct l as [|v vs]; [congruence|]. intros _ H.
  assert (Hv : v = c) by (apply H; left; reflexivity). subst v.
  assert (Hvs : forall v, In v vs -> v = c) by (intros v Hi; apply H; right; exact Hi).
  clear H. unfold list_max, list_min.
  induction vs as [|w vs IH]; [split; reflexivity|]. simpl.
  rewrite (Hvs w (or_introl eq_refl)).
  replace (Rmax c c) with c by (unfold Rmax; destruct (Rle_dec c c); reflexivity).
  replace (Rmin c c) with c by (unfold Rmin; destruct (Rle_dec c c); reflexivity).
  apply IH. intros v Hi. apply Hvs. right. exact Hi.
Qed.

(** X9: [is_not_dirt] gives one flag per probe, in sorted order; a probe
    all of whose records sit at one position has a bounding box of
    diagonal 0 and is flagged as dirt ([False]) for any threshold
    [>= 0]. *)
Theorem is_not_dirt_stationary traj threshold mpp pid px py :
  (0 <= threshold)%R -> In pid (probes traj) ->
  (forall f r, In (f, r) traj -> probe r = pid -> x r = px /\ y r = py) ->
  map fst (is_not_dirt traj threshold mpp) = probes traj /\
  lookup pid (is_not_dirt traj threshold mpp) = Some false.
Proof.
  intros Ht Hp Hpos. split.
  { unfold is_not_dirt. rewrite map_map. apply map_id. }
  unfold is_not_dirt. rewrite lookup_map_pairs by reflexivity.
  destruct (in_dec Z.eq_dec pid (probes traj)) as [_|]; [|contradiction].
  cbv beta zeta. cbn [snd]. f_equal.
  assert (Hg : map snd (group traj pid) <> []).
  { pose proof (group_nonempty traj pid Hp). destruct (group traj pid); [contradiction | discriminate]. }
  assert (Hin : forall r, In r (map snd (group traj pid)) -> x r = px /\ y r = py).
  { intros r Hr. apply in_map_iff in Hr as ([f r'] & <- & Hr). apply filter_In in Hr as [Hr Ep].
    apply (Hpos f r'); [exact Hr | apply Z.eqb_eq; exact Ep]. }
  destruct (list_max_min_const (map x (map snd (group traj pid))) px) as [Ex1 Ex2].
  { destruct (map snd (group traj pid)); [contradiction | discriminate]. }
  { intros v Hv. apply in_map_iff in Hv as (r & <- & Hr). apply Hin, Hr. }
  destruct (list_max_min_const (map y (map snd (group traj pid))) py) as [Ey1 Ey2].
  { destruct (map snd (group traj pid)); [contradiction | discriminate]. }
  { intros v Hv. apply in_map_iff in Hv as (r & <- & Hr). apply Hin, Hr. }
  rewrite Ex1, Ex2, Ey1, Ey2.
  replace ((px - px) ^ 2 + (py - py) ^ 2)%R with 0%R by ring. rewrite sqrt_0.
  destruct (Rlt_dec threshold 0); [lra | reflexivity].
Qed.

Lemma is_not_dirt_stationary_witness :
  (0 <= 3)%R /\ In 1 (probes traj_still) /\
  (forall f r, In (f, r) traj_still -> probe r = 1 -> x r = 5%R /\ y r = 5%R) /\
  map fst (is_not_dirt traj_still 3 1) = probes traj_still /\
  lookup 1 (is_not_dirt traj_still 3 1) = Some false.
Proof.
  assert (H1 : (0 <= 3)%R) by lra.
  assert (H2 : In 1 (probes traj_still)) by (simpl; auto).
  assert (H3 : forall f r, In (f, r) traj_still -> probe r = 1 -> x r = 5%R /\ y r = 5%R).
  { intros f r Hr _. simpl in Hr. repeat destruct Hr as [Hr|Hr]; try contradiction;
      injection Hr as <- <-; simpl; split; reflexivity. }
  split; [exact H1|]. split; [exact H2|]. split; [exact H3|].
  apply (is_not_dirt_stationary traj_still 3 1 1 5 5); assumption.
Defined.

(** X10: raising the threshold never turns dirt into non-dirt: a probe
    flagged [True] at a threshold is flagged [True] at every lower one
    (the flag is [diag_size > threshold]), whatever [mpp]. *)
Theorem is_not_dirt_antitone traj th1 th2 mpp1 mpp2 pid :
  (th1 <= th2)%R ->
  lookup pid (is_not_dirt traj th2 mpp2) = Some true ->
  lookup pid (is_not_dirt traj th1 mpp1) = Some true.
Proof.
  intros Hle. unfold is_not_dirt. rewrite !lookup_map_pairs by reflexivity.
  destruct (in_dec Z.eq_dec pid (probes traj)); [|discriminate].
  cbv beta zeta. cbn [snd].
  match goal with |- Some (if Rlt_dec _ ?d then _ else _) = _ -> _ =>
    destruct (Rlt_dec th1 d), (Rlt_dec th2 d); intros; first [reflexivity | discriminate | lra] end.
Qed.

Lemma is_not_dirt_antitone_witness :
  (1 / 2 <= 1)%R /\ lookup 1 (is_not_dirt traj_two_points 1 1) = Some true /\
  lookup 1 (is_not_dirt traj_two_points (1 / 2) 1) = Some true.
Proof.
  assert (H : lookup 1 (is_not_dirt traj_two_points 1 1) = Some true)
    by (eval_R; decide_R; eval_sqrt 2%R; decide_R; reflexivity).
  split; [lra|]. split; [exact H|].
  apply (is_not_dirt_antitone traj_two_points (1 / 2) 1 1 1 1); [lra | exact H].
Defined.

(** ** [vanhove] *)

Lemma length_removelast' {A} (l : list A) : length (removelast l) = pred (length l).
Proof.
  induction l as [|a [|b l] IH]; [reflexivity | reflexivity|].
  change (removelast (a :: b :: l)) with (a :: removelast (b :: l)).
  cbn [length] in *. rewrite IH. reflexivity.
Qed.

Lemma hist_density_length edges col :
  length (hist_density edges col) = pred (length edges).
Proof.
  unfold hist_density. cbv zeta. rewrite length_map, length_combine, length_map, !length_combine,
    length_seq, length_removelast'.
  destruct edges; simpl; lia.
Qed.

Lemma hist_edges_Nbins values n e :
  hist_edges values (Nbins n) = Ok e -> 1 <= n /\ length e = S (Z.to_nat n).
Proof.
  unfold hist_edges. destruct (Z.ltb_spec n 1); [discriminate|].
  intros E. injection E as <-. split; [lia|].
  destruct values; cbv beta iota zeta; destruct (Req_dec_T _ _); cbv beta iota zeta;
    cbn [length]; rewrite length_map, length_seq; reflexivity.
Qed.

Lemma hist_edges_Ok values bins e :
  hist_edges values bins = Ok e ->
  match bins with Nbins n => 1 <= n | BinEdges es => decreases es = false end.
Proof.
  destruct bins as [n|es].
  - intros H. apply hist_edges_Nbins in H. lia.
  - unfold hist_edges. destruct (decreases es); [discriminate | reflexivity].
Qed.

(** Like [decide_R], but settles the comparisons before the equality
    tests, re-evaluating after each step, so that a count inside a
    divisor is known when the divisor is tested. *)
Ltac decide_R_cmp_first :=
  repeat (match goal with
          | |- context [Rlt_dec ?a ?b] => destruct (Rlt_dec a b); [close_R | close_R]
          | |- context [Rle_dec ?a ?b] => destruct (Rle_dec a b); [close_R | close_R]
          | |- context [Req_dec_T ?a ?b] => destruct (Req_dec_T a b); [close_R | close_R]
          end; eval_R).

Ltac vanhove_steps H :=
  unfold vanhove in H;
  destruct (reindex _ _) as [?p|?e]; cbn [bind] in H; [|discriminate];
  destruct (map fst _) as [|?i ?is]; [discriminate|];
  destruct (_ <=? _); [|discriminate].

(** X11: the shape of [vanhove]'s output with [bins = n]: the index holds
    the [n] left bin edges, the table one column of [n] densities per
    probe, and the ensemble series [n] values. *)
Theorem vanhove_shape ncols pos lagtime mpp ensemble n out :
  vanhove ncols pos lagtime mpp ensemble (Nbins n) = Ok out ->
  match out with
  | VHFrame idx cols =>
      length idx = Z.to_nat n /\ length cols = ncols /\
      Forall (fun c => length c = Z.to_nat n) cols
  | VHSeries idx vals => length idx = Z.to_nat n /\ length vals = Z.to_nat n
  end.
Proof.
  intros H. vanhove_steps H.
  destruct (hist_edges _ (Nbins n)) as [gb|e] eqn:Eh; cbn [bind] in H; [|discriminate].
  apply hist_edges_Nbins in Eh as [_ Hl]. injection H as <-.
  assert (Hi : length (removelast gb) = Z.to_nat n) by (rewrite length_removelast', Hl; reflexivity).
  destruct ensemble.
  - split; [exact Hi|]. rewrite length_map, length_seq. exact Hi.
  - split; [exact Hi|]. split; [rewrite length_map, length_seq; reflexivity|].
    apply Forall_forall. intros c Hc. apply in_map_iff in Hc as (j & <- & _).
    rewrite hist_density_length, Hl. reflexivity.
Qed.

Lemma vanhove_shape_witness :
  exists out, vanhove 1 pos_late 1 1 false (Nbins 2) = Ok out /\
  match out with
  | VHFrame idx cols =>
      length idx = Z.to_nat 2 /\ length cols = 1%nat /\
      Forall (fun c => length c = Z.to_nat 2) cols
  | VHSeries idx vals => length idx = Z.to_nat 2 /\ length vals = Z.to_nat 2
  end.
Proof.
  eexists. split.
  - eval_R. decide_R_cmp_first. reflexivity.
  - apply (vanhove_shape 1 pos_late 1 1 false 2).
    eval_R. decide_R_cmp_first. reflexivity.
Defined.

(** X12: [vanhove] raises [IndexError] on a table with no frame, and
    never succeeds with a number of bins below 1 or with bin edges that
    decrease somewhere. *)
Theorem vanhove_Ok_bins ncols pos lagtime mpp ensemble bins out :
  vanhove ncols pos lagtime mpp ensemble bins = Ok out ->
  pos <> [] /\
  match bins with Nbins n => 1 <= n | BinEdges es => decreases es = false end.
Proof.
  intros H. split.
  { intros ->. discriminate. }
  vanhove_steps H.
  destruct (hist_edges _ bins) as [gb|e] eqn:Eh; cbn [bind] in H; [|discriminate].
  apply hist_edges_Ok in Eh. exact Eh.
Qed.

Lemma vanhove_Ok_bins_witness :
  exists out, vanhove 1 pos_late 1 1 true (Nbins 2) = Ok out /\
  (pos_late <> [] /\ 1 <= 2).
Proof.
  eexists. split.
  - eval_R. decide_R_cmp_first. reflexivity.
  - eapply (vanhove_Ok_bins 1 pos_late 1 1 true (Nbins 2)).
    eval_R. decide_R_cmp_first. reflexivity.
Defined.

(** ** Density normalisation in [vanhove] *)

Lemma bins_increasing (e : list R) :
  Sorted Rlt e -> forall lo hi, In (lo, hi) (combine (removelast e) (tl e)) -> (lo < hi)%R.
Proof.
  induction e as [|a [|b l] IH]; intros Hs lo hi Hin; [destruct Hin | destruct Hin|].
  change (combine (removelast (a :: b :: l)) (tl (a :: b :: l)))
    with ((a, b) :: combine (removelast (b :: l)) (tl (b :: l))) in Hin.
  inversion Hs as [|? ? Hs' Hd]; subst. inversion Hd; subst.
  destruct Hin as [E|Hin].
  - injection E as <- <-. assumption.
  - apply IH; assumption.
Qed.

Lemma Sorted_not_decreases (e : list R) : Sorted Rlt e -> decreases e = false.
Proof.
  induction e as [|a [|b l] IH]; intros Hs; [reflexivity | reflexivity|].
  inversion Hs as [|? ? Hs' Hd]; subst. inversion Hd; subst.
  cbn [decreases]. destruct (Rlt_dec (b - a) 0); [lra|]. apply IH, Hs'.
Qed.

Lemma density_sum (cs : list nat) (bs : list (R * R)) (T : R) :
  length cs = length bs -> (forall lo hi, In (lo, hi) bs -> (hi - lo <> 0)%R) -> T <> 0%R ->
  fold_right Rplus 0%R (zipWith Rmult
    (map (fun '(c, (lo, hi)) => (INR c / (hi - lo) / T)%R) (combine cs bs))
    (map (fun '(lo, hi) => (hi - lo)%R) bs))
  = (INR (fold_right Nat.add 0%nat cs) / T)%R.
Proof.
  revert bs. induction cs as [|c cs IH]; intros [|[lo hi] bs] Hl Hw HT; try discriminate.
  - simpl. field. exact HT.
  - cbn [combine map zipWith fold_right]. rewrite IH.
    + rewrite plus_INR. field. split; [exact HT | apply (Hw lo hi); left; reflexivity].
    + simpl in Hl. lia.
    + intros lo' hi' H. apply (Hw lo' hi'). right. exact H.
    + exact HT.
Qed.

Lemma hist_density_normalised (edges : list R) (col : list flt) :
  Sorted Rlt edges ->
  Forall (fun d => d = None) (hist_density edges col) \/
  exists ds, hist_density edges col = map Some ds /\
    fold_right Rplus 0%R (zipWith Rmult ds
      (map (fun '(lo, hi) => (hi - lo)%R) (combine (removelast edges) (tl edges)))) = 1%R.
Proof.
  intros Hs. pose proof (bins_increasing edges Hs) as Hinc.
  unfold hist_density. cbv zeta.
  set (bins := combine (removelast edges) (tl edges)) in *.
  set (counts := map _ (combine (seq 0 (length bins)) bins)).
  set (total := fold_right Nat.add 0%nat counts).
  destruct (Nat.eq_dec total 0) as [Hz|Hz].
  - left. apply Forall_forall. intros d Hd. apply in_map_iff in Hd as ([c [lo hi]] & <- & _).
    rewrite Hz. apply fdiv_zero.
  - right. exists (map (fun '(c, (lo, hi)) => (INR c / (hi - lo) / INR total)%R) (combine counts bins)).
    assert (HT : INR total <> 0%R) by (apply not_0_INR; exact Hz).
    split.
    + rewrite map_map. apply map_ext_in. intros [c [lo hi]] Hin.
      apply in_combine_r, Hinc in Hin. unfold fdiv.
      destruct (Req_dec_T (hi - lo) 0); [lra|].
      destruct (Req_dec_T (INR total) 0); [contradiction | reflexivity].
    + rewrite density_sum.
      * fold total. field. exact HT.
      * unfold counts. rewrite length_map, length_combine, length_seq. lia.
      * intros lo hi H. apply Hinc in H. lra.
      * exact HT.
Qed.

(** X13: with explicit, strictly increasing bin edges, each probe's column
    of [vanhove] is a probability density over those bins: its values
    times the bin widths sum to 1, or, for a probe with no finite
    displacement in the bins, every value is NaN ([density=True] divides
    by a zero count). The index is the left edges. *)
Theorem vanhove_columns_normalised ncols pos lagtime mpp e idx cols :
  Sorted Rlt e ->
  vanhove ncols pos lagtime mpp false (BinEdges e) = Ok (VHFrame idx cols) ->
  idx = removelast e /\
  Forall (fun c => Forall (fun d => d = None) c \/
            exists ds, c = map Some ds /\
              fold_right Rplus 0%R (zipWith Rmult ds
                (map (fun '(lo, hi) => (hi - lo)%R) (combine (removelast e) (tl e)))) = 1%R)
    cols.
Proof.
  intros Hs H. vanhove_steps H.
  unfold hist_edges in H. rewrite (Sorted_not_decreases e Hs) in H. cbn [bind] in H.
  injection H as <- <-. split; [reflexivity|].
  apply Forall_forall. intros c Hc. apply in_map_iff in Hc as (j & <- & _).
  apply hist_density_normalised, Hs.
Qed.

Lemma vanhove_columns_normalised_witness :
  exists idx cols,
  Sorted Rlt [0; 1; 3]%R /\
  vanhove 2 pos_two_cols 1 1 false (BinEdges [0; 1; 3]%R) = Ok (VHFrame idx cols) /\
  (idx = removelast [0; 1; 3]%R /\
   Forall (fun c => Forall (fun d => d = None) c \/
            exists ds, c = map Some ds /\
              fold_right Rplus 0%R (zipWith Rmult ds
                (map (fun '(lo, hi) => (hi - lo)%R)
                     (combine (removelast [0; 1; 3]%R) (tl [0; 1; 3]%R)))) = 1%R)
     cols).
Proof.
  assert (Hs : Sorted Rlt [0; 1; 3]%R)
    by (repeat constructor; lra).
  do 2 eexists. split; [exact Hs|]. split.
  - eval_R. decide_R_cmp_first. reflexivity.
  - apply (vanhove_columns_normalised 2 pos_two_cols 1 1 [0; 1; 3]%R); [exact Hs|].
    eval_R. decide_R_cmp_first. reflexivity.
Defined.

(** ** [compute_drift] and [subtract_drift] on one probe *)

Lemma probes_single traj p :
  traj <> [] -> (forall i r, In (i, r) traj -> probe r = p) -> probes traj = [p].
Proof.
  unfold probes. induction traj as [|[i r] t IH]; intros Hne Hp; [congruence|].
  cbn [map sort_uniq fold_right]. fold (sort_uniq (map (fun '(_, r0) => probe r0) t)).
  rewrite (Hp i r (or_introl eq_refl)).
  destruct t as [|b t].
  - reflexivity.
  - rewrite IH by (try discriminate; intros i' r' H; apply (Hp i' r'); right; exact H).
    simpl. rewrite Z.ltb_irrefl, Z.eqb_refl. reflexivity.
Qed.

Lemma group_all traj p : (forall i r, In (i, r) traj -> probe r = p) -> group traj p = traj.
Proof.
  unfold group. induction traj as [|[i r] t IH]; intros Hp; [reflexivity|].
  simpl. rewrite (Hp i r (or_introl eq_refl)), Z.eqb_refl. f_equal.
  apply IH. intros i' r' H. apply (Hp i' r'). right. exact H.
Qed.

Lemma diff_consec (rs : list rec) (q : rec) :
  map frame rs = arange (frame q + 1) (frame q + 1 + Z.of_nat (length rs)) ->
  filter (fun '(_, (df, _, _)) => match df with Some d => d =? 1 | None => false end)
    (zipWith (fun r prev => (frame r, match prev with
                                     | Some p => (Some (frame r - frame p),
                                                  Some (x r - x p)%R, Some (y r - y p)%R)
                                     | None => (None, None, None)
                                     end))
             rs (Some q :: map Some rs))
  = zipWith (fun r p => (frame r, (Some 1, Some (x r - x p)%R, Some (y r - y p)%R))) rs (q :: rs).
Proof.
  revert q. induction rs as [|r rs IH]; intros q Hf; [reflexivity|].
  cbn [length] in Hf. rewrite arange_cons in Hf by lia. cbn [map] in Hf.
  injection Hf as Hr Hf.
  change (map Some (r :: rs)) with (Some r :: map Some rs).
  cbn [zipWith filter]. replace (frame r - frame q) with 1 by lia. cbn [Z.eqb Pos.eqb].
  f_equal. apply IH. rewrite Hf. f_equal; lia.
Qed.

Lemma diff_rows_consec (g : table) (r0 : rec) (rs : list rec) :
  map snd g = r0 :: rs ->
  map frame (r0 :: rs) = arange (frame r0) (frame r0 + Z.of_nat (S (length rs))) ->
  filter (fun '(_, (df, _, _)) => match df with Some d => d =? 1 | None => false end)
    (diff_rows g)
  = zipWith (fun r p => (frame r, (Some 1, Some (x r - x p)%R, Some (y r - y p)%R))) rs (r0 :: rs).
Proof.
  intros Hg Hf. unfold diff_rows. rewrite Hg.
  change (map Some (r0 :: rs)) with (Some r0 :: map Some rs).
  cbn [zipWith filter]. apply diff_consec.
  rewrite arange_cons in Hf by lia. injection Hf as Hf. rewrite Hf. f_equal; lia.
Qed.

Lemma map_fst_zipWith_frame {V} (G : rec -> rec -> V) (rs : list rec) (q : rec) :
  map fst (zipWith (fun r p => (frame r, G r p)) rs (q :: rs)) = map frame rs.
Proof.
  revert q. induction rs as [|r rs IH]; intros q; [reflexivity|].
  cbn [zipWith map fst]. f_equal. apply IH.
Qed.

Lemma map_keys_unique {A B} (h : list (Z * A) -> B) (D : list (Z * A)) :
  NoDup (map fst D) ->
  map (fun k => h (filter (fun '(l, _) => l =? k) D)) (map fst D)
  = map (fun '(k, v) => h [(k, v)]) D.
Proof.
  intros Hd. rewrite map_map. apply map_ext_in. intros [k v] Hin. cbn [fst].
  rewrite (filter_key_unique k v) by (try apply lookup_In_NoDup; assumption).
  reflexivity.
Qed.

Lemma map_zipWith {A B C D} (h : C -> D) (f : A -> B -> C) l1 l2 :
  map h (zipWith f l1 l2) = zipWith (fun a b => h (f a b)) l1 l2.
Proof.
  revert l2. induction l1 as [|a l1 IH]; intros [|b l2]; try reflexivity.
  cbn [zipWith map]. f_equal. apply IH.
Qed.

Lemma cumsum_telescope (fx : rec -> R) (H : rec -> rec -> flt) :
  (forall r q, H r q = Some (fx r - fx q)%R) ->
  forall rs q acc, cumsum_from acc (zipWith H rs (q :: rs))
                   = map (fun r => Some (acc + (fx r - fx q))%R) rs.
Proof.
  intros HH rs. induction rs as [|r rs IH]; intros q acc; [reflexivity|].
  cbn [zipWith]. rewrite HH. cbn [cumsum_from map]. f_equal. rewrite IH.
  apply map_ext. intros r'. f_equal. ring.
Qed.

Lemma combine_map3 {A B C D} (f : A -> B) (g : A -> C) (h : A -> D) (l : list A) :
  combine (map f l) (combine (map g l) (map h l)) = map (fun a => (f a, (g a, h a))) l.
Proof. induction l as [|a l IH]; [reflexivity|]. simpl. f_equal. exact IH. Qed.

Lemma compute_drift_track traj p r0 rs smoothing :
  smoothing <= 0 -> map snd traj = r0 :: rs -> Forall (fun r => probe r = p) (r0 :: rs) ->
  map frame (r0 :: rs) = arange (frame r0) (frame r0 + Z.of_nat (S (length rs))) ->
  compute_drift traj smoothing
  = Ok (map (fun r => (frame r, (Some (x r - x r0)%R, Some (y r - y r0)%R))) rs).
Proof.
  intros Hs Hg Hp Hf.
  assert (Hp' : forall i r, In (i, r) traj -> probe r = p).
  { intros i r Hin. rewrite Forall_forall in Hp. apply Hp. rewrite <- Hg.
    apply in_map_iff. exists (i, r). split; [reflexivity | exact Hin]. }
  assert (Hne : traj <> []) by (intros ->; discriminate).
  assert (Hrs : map frame rs = arange (frame r0 + 1) (frame r0 + 1 + Z.of_nat (length rs))).
  { rewrite arange_cons in Hf by lia. injection Hf as Hf. rewrite Hf. f_equal; lia. }
  unfold compute_drift. rewrite (probes_single traj p Hne Hp'). cbn [map].
  rewrite (group_all traj p Hp').
  replace (pd_concat [diff_rows traj]) with (Ok (diff_rows traj))
    by (cbn; rewrite app_nil_r; reflexivity).
  cbn [bind]. cbv zeta.
  rewrite (diff_rows_consec traj r0 rs Hg Hf).
  set (D := zipWith _ rs (r0 :: rs)).
  unfold flt in *.
  assert (HD : map fst D = map frame rs) by apply map_fst_zipWith_frame.
  assert (HND : NoDup (map fst D)) by (rewrite HD, Hrs; apply arange_NoDup).
  replace (sort_uniq (map fst D)) with (map fst D)
    by (symmetry; apply sort_uniq_SS; rewrite HD, Hrs; apply arange_SS).
  destruct (Z.ltb_spec 0 smoothing) as [|_]; [lia|].
  pose proof (map_keys_unique (fun l => fmean (map (fun '(_, (_, a, _)) => a) l)) D HND) as E1.
  pose proof (map_keys_unique (fun l => fmean (map (fun '(_, (_, _, b)) => b) l)) D HND) as E2.
  cbv beta in E1, E2. unfold flt in *. rewrite E1, E2.
  rewrite HD. unfold D. rewrite !map_zipWith.
  rewrite (cumsum_telescope x), (cumsum_telescope y)
    by (intros r q; cbn [map]; apply fmean_single).
  rewrite combine_map3. f_equal. apply map_ext. intros r.
  f_equal; f_equal; f_equal; ring.
Qed.

(** X14: the drift of a single probe observed at every frame from [f0]
    on is its displacement from its first position, [x(t) - x(f0)]: the
    per-frame steps telescope under [cumsum]. The first frame gets no
    drift row, since [diff()] leaves it NaN and [delta['frame'] == 1]
    drops it. *)
Theorem compute_drift_single_probe traj p r0 rs smoothing :
  smoothing <= 0 -> map snd traj = r0 :: rs -> Forall (fun r => probe r = p) (r0 :: rs) ->
  map frame (r0 :: rs) = arange (frame r0) (frame r0 + Z.of_nat (S (length rs))) ->
  compute_drift traj smoothing
  = Ok (map (fun r => (frame r, (Some (x r - x r0)%R, Some (y r - y r0)%R))) rs).
Proof. apply compute_drift_track. Qed.

Lemma compute_drift_single_probe_witness :
  compute_drift traj_line 0
  = Ok (map (fun r => (frame r, (Some (x r - x (mkrec 1 0 0 0))%R, Some (y r - y (mkrec 1 0 0 0))%R)))
            [mkrec 1 1 1 0; mkrec 1 2 2 0; mkrec 1 3 3 0; mkrec 1 4 4 0]).
Proof.
  apply (compute_drift_single_probe traj_line 1 (mkrec 1 0 0 0)
           [mkrec 1 1 1 0; mkrec 1 2 2 0; mkrec 1 3 3 0; mkrec 1 4 4 0] 0).
  - lia.
  - reflexivity.
  - repeat constructor.
  - reflexivity.
Defined.

Lemma insert_uniq_SS z l : StronglySorted Z.lt l -> StronglySorted Z.lt (insert_uniq z l).
Proof.
  induction l as [|h t IH]; intros H; simpl.
  - repeat constructor.
  - apply StronglySorted_inv in H as [Ht Hh].
    destruct (Z.ltb_spec z h).
    + constructor; [constructor; assumption|]. constructor; [exact H|].
      eapply Forall_impl; [|exact Hh]. intros a Ha. simpl in Ha. lia.
    + destruct (Z.eqb_spec z h); [constructor; assumption|].
      constructor; [apply IH, Ht|]. apply Forall_forall. intros a Ha.
      apply In_insert_uniq in Ha as [->|Ha]; [lia|]. rewrite Forall_forall in Hh. apply Hh, Ha.
Qed.

Lemma sort_uniq_sorted l : StronglySorted Z.lt (sort_uniq l).
Proof. induction l as [|a l IH]; [constructor|]. apply insert_uniq_SS, IH. Qed.

Lemma SS_ext l1 l2 :
  StronglySorted Z.lt l1 -> StronglySorted Z.lt l2 -> (forall z, In z l1 <-> In z l2) -> l1 = l2.
Proof.
  revert l2. induction l1 as [|a l1 IH]; intros [|b l2] H1 H2 Hi.
  - reflexivity.
  - exfalso. apply (proj2 (Hi b)). left. reflexivity.
  - exfalso. apply (proj1 (Hi a)). left. reflexivity.
  - assert (Hab : a = b).
    { pose proof (SS_first a l1 b H1 (proj2 (Hi b) (or_introl eq_refl))).
      pose proof (SS_first b l2 a H2 (proj1 (Hi a) (or_introl eq_refl))). lia. }
    subst b. apply StronglySorted_inv in H1 as [H1 F1]. apply StronglySorted_inv in H2 as [H2 F2].
    f_equal. apply IH; [exact H1 | exact H2|]. intros z. rewrite Forall_forall in F1, F2.
    split; intros Hz.
    + destruct (proj1 (Hi z) (or_intror Hz)) as [->|Hz']; [|exact Hz'].
      specialize (F1 z Hz). lia.
    + destruct (proj2 (Hi z) (or_intror Hz)) as [->|Hz']; [|exact Hz'].
      specialize (F2 z Hz). lia.
Qed.

Lemma flat_map_singletons {A B} (f : A -> list B) (g : A -> B) (l : list A) :
  (forall a, In a l -> f a = [g a]) -> flat_map f l = map g l.
Proof.
  induction l as [|a l IH]; intros H; [reflexivity|]. simpl.
  rewrite (H a (or_introl eq_refl)), IH; [reflexivity|]. intros b Hb. apply H. right. exact Hb.
Qed.

Lemma flat_map_map_singletons {A B C} (f : B -> list C) (g : A -> B) (h : A -> C) (l : list A) :
  (forall a, In a l -> f (g a) = [h a]) -> flat_map f (map g l) = map h l.
Proof.
  induction l as [|a l IH]; intros H; [reflexivity|]. simpl.
  rewrite (H a (or_introl eq_refl)), IH; [reflexivity|]. intros b Hb. apply H. right. exact Hb.
Qed.

(** X15: [subtract_drift(traj)] without a drift argument, on a single
    probe observed at every frame from [f0] on, pins every record to the
    probe's first position: the drift computed from the probe itself is
    its whole motion. The first frame has no drift row and keeps its
    position through [fill_value=0]; probe and frame become floats. *)
Theorem subtract_drift_single_probe traj p r0 rs :
  map snd traj = r0 :: rs -> Forall (fun r => probe r = p) (r0 :: rs) ->
  map frame (r0 :: rs) = arange (frame r0) (frame r0 + Z.of_nat (S (length rs))) ->
  subtract_drift traj None
  = Ok (map (fun r => (frame r, mksrow (Some (IZR (frame r))) (Some (IZR p))
                                     (Some (x r0)) (Some (y r0)))) (r0 :: rs)).
Proof.
  intros Hg Hp Hf.
  assert (Hrs : map frame rs = arange (frame r0 + 1) (frame r0 + 1 + Z.of_nat (length rs))).
  { rewrite arange_cons in Hf by lia. injection Hf as Hf. rewrite Hf. f_equal; lia. }
  unfold subtract_drift. cbn [bind].
  rewrite (compute_drift_track traj p r0 rs 0) by (assumption || lia). cbn [bind].
  f_equal.
  unfold flt in *.
  set (t := set_index_frame traj).
  assert (Ht : t = map (fun r => (frame r, r)) (r0 :: rs)).
  { unfold t, set_index_frame. rewrite <- Hg, map_map. apply map_ext. intros [i r]. reflexivity. }
  set (drift := map (fun r => (frame r, (Some (x r - x r0)%R, Some (y r - y r0)%R))) rs).
  assert (Hkeys : sort_uniq (map fst t ++ map fst drift) = map frame (r0 :: rs)).
  { apply SS_ext.
    - apply sort_uniq_sorted.
    - rewrite Hf. apply arange_SS.
    - intros z. rewrite In_sort_uniq, in_app_iff.
      replace (map fst t) with (map frame (r0 :: rs)) by (rewrite Ht, map_map; reflexivity).
      replace (map fst drift) with (map frame rs) by (unfold drift; rewrite map_map; reflexivity).
      cbn [map In]. split; [intros [Hz|Hz]; [exact Hz | right; exact Hz] | intros Hz; left; exact Hz]. }
  rewrite Hkeys. apply flat_map_map_singletons. intros r Hr.
  assert (Et : map fst t = map frame (r0 :: rs)) by (rewrite Ht, map_map; reflexivity).
  assert (Ed : map fst drift = map frame rs) by (unfold drift; rewrite map_map; reflexivity).
  assert (HNt : NoDup (map fst t)) by (rewrite Et, Hf; apply arange_NoDup).
  assert (HNd : NoDup (map fst drift)) by (rewrite Ed, Hrs; apply arange_NoDup).
  rewrite (filter_key_unique (frame r) r t HNt).
  2: { apply lookup_In_NoDup; [exact HNt|]. rewrite Ht. apply in_map_iff. exists r. split; [reflexivity | exact Hr]. }
  assert (Hpr : probe r = p) by (rewrite Forall_forall in Hp; apply Hp, Hr).
  destruct Hr as [<-|Hr].
  - rewrite filter_key_none.
    2: { rewrite Ed, Hrs, In_arange. lia. }
    cbn [map snd flat_map app sub_fill]. rewrite Hpr. reflexivity.
  - rewrite (filter_key_unique (frame r) (Some (x r - x r0)%R, Some (y r - y r0)%R) drift HNd).
    2: { apply lookup_In_NoDup; [exact HNd|]. unfold drift. apply in_map_iff. exists r. split; [reflexivity | exact Hr]. }
    cbn [map snd flat_map app sub_fill]. rewrite Hpr. do 3 f_equal; f_equal; ring.
Qed.

Lemma subtract_drift_single_probe_witness :
  subtract_drift traj_line None
  = Ok (map (fun r => (frame r, mksrow (Some (IZR (frame r))) (Some (IZR 1))
                                     (Some (x (mkrec 1 0 0 0))) (Some (y (mkrec 1 0 0 0)))))
            [mkrec 1 0 0 0; mkrec 1 1 1 0; mkrec 1 2 2 0; mkrec 1 3 3 0; mkrec 1 4 4 0]).
Proof.
  apply (subtract_drift_single_probe traj_line 1 (mkrec 1 0 0 0)
           [mkrec 1 1 1 0; mkrec 1 2 2 0; mkrec 1 3 3 0; mkrec 1 4 4 0]).
  - reflexivity.
  - repeat constructor.
  - reflexivity.
Defined.

(** ** Displacement correlations *)

Lemma atan2_polar dx dy :
  (sqrt (dx * dx + dy * dy) * cos (atan2 dy dx) = dx /\
   sqrt (dx * dx + dy * dy) * sin (atan2 dy dx) = dy)%R.
Proof.
  unfold atan2.
  destruct (Rlt_dec 0 dx) as [Hp|Hp].
  - set (z := (dy / dx)%R). assert (Hw : (0 < 1 + z²)%R) by (unfold Rsqr; nra).
    assert (Hs : sqrt (dx * dx + dy * dy) = (dx * sqrt (1 + z²))%R).
    { replace (dx * dx + dy * dy)%R with ((dx * dx) * (1 + z²))%R by (unfold z, Rsqr; field; lra).
      rewrite sqrt_mult by nra. rewrite sqrt_square by lra. reflexivity. }
    pose proof (sqrt_lt_R0 _ Hw) as Hq.
    rewrite Hs, cos_atan, sin_atan. split; unfold z in *; field; repeat split; lra.
  - destruct (Rlt_dec dx 0) as [Hn|Hn].
    + set (z := (dy / dx)%R). assert (Hw : (0 < 1 + z²)%R) by (unfold Rsqr; nra).
      assert (Hs : sqrt (dx * dx + dy * dy) = (- dx * sqrt (1 + z²))%R).
      { replace (dx * dx + dy * dy)%R with ((- dx * - dx) * (1 + z²))%R by (unfold z, Rsqr; field; lra).
        rewrite sqrt_mult by nra. rewrite sqrt_square by lra. reflexivity. }
      pose proof (sqrt_lt_R0 _ Hw) as Hq.
      assert (Ht : forall th, th = (atan z + PI)%R \/ th = (atan z - PI)%R ->
                   cos th = (- cos (atan z))%R /\ sin th = (- sin (atan z))%R).
      { intros th [->| ->].
        - split; [apply neg_cos | apply neg_sin].
        - rewrite cos_minus, sin_minus, cos_PI, sin_PI. split; ring. }
      match goal with |- context [cos ?th] =>
        destruct (Ht th) as [Ec Es]; [destruct (Rle_dec 0 dy); [left | right]; reflexivity|] end.
      rewrite Ec, Es, Hs, cos_atan, sin_atan. split; unfold z in *; field; repeat split; lra.
    + assert (dx = 0%R) by lra. subst dx.
      destruct (Rlt_dec 0 dy).
      * replace (0 * 0 + dy * dy)%R with (dy * dy)%R by ring. rewrite sqrt_square by lra.
        rewrite cos_PI2, sin_PI2. split; ring.
      * destruct (Rlt_dec dy 0).
        -- replace (0 * 0 + dy * dy)%R with (- dy * - dy)%R by ring. rewrite sqrt_square by lra.
           rewrite cos_neg, sin_neg, cos_PI2, sin_PI2. split; ring.
        -- assert (dy = 0%R) by lra. subst dy.
           replace (0 * 0 + 0 * 0)%R with 0%R by ring. rewrite sqrt_0. split; ring.
Qed.

Lemma atan2_unit_dir dx dy :
  unit_dir dx dy = (cos (atan2 dy dx), sin (atan2 dy dx)).
Proof.
  unfold unit_dir. destruct (atan2_polar dx dy) as [Hc Hs].
  destruct (Req_dec_T (sqrt (dx * dx + dy * dy)) 0) as [Hz|Hz].
  - apply sqrt_eq_0 in Hz; [|nra].
    assert (dx = 0%R) by nra. assert (dy = 0%R) by nra. subst dx dy.
    unfold atan2. destruct (Rlt_dec 0 0); [lra|]. destruct (Rlt_dec 0 0); [lra|].
    rewrite cos_0, sin_0. reflexivity.
  - f_equal.
    + rewrite <- Hc at 1. field. exact Hz.
    + rewrite <- Hs at 1. field. exact Hz.
Qed.

Lemma triu_indices_S n :
  triu_indices (S n)
  = map (fun j => (0%nat, j)) (seq 1 n) ++ map (fun '(i, j) => (S i, S j)) (triu_indices n).
Proof.
  unfold triu_indices. cbn [seq flat_map]. f_equal.
  - f_equal. f_equal. lia.
  - rewrite <- seq_shift. rewrite !flat_map_concat_map, concat_map, !map_map. f_equal.
    apply map_ext. intros i. rewrite map_map.
    replace (S n - S (S i))%nat with (n - S i)%nat by lia. rewrite <- seq_shift, map_map.
    reflexivity.
Qed.

Lemma map_nth_seq0 {A B} (G : A -> B) (l : list A) d :
  map (fun j => G (nth j l d)) (seq 0 (length l)) = map G l.
Proof.
  induction l as [|a l IH]; [reflexivity|]. cbn [length seq map nth]. f_equal.
  rewrite <- seq_shift, map_map. exact IH.
Qed.

Lemma triu_map {A B} (l : list A) (d : A) (H : nat * nat -> B) (F : A -> A -> B) :
  (forall a b, H (a, b) = F (nth a l d) (nth b l d)) ->
  map H (triu_indices (length l)) = map (fun '(u, v) => F u v) (upper_pairs l).
Proof.
  revert H. induction l as [|a l IH]; intros H HH; [reflexivity|].
  cbn [length upper_pairs]. rewrite triu_indices_S, !map_app. f_equal.
  - rewrite <- seq_shift, !map_map.
    transitivity (map (F a) l); [|apply map_ext; reflexivity].
    rewrite <- (map_nth_seq0 (F a) l d). apply map_ext. intros j. rewrite HH. reflexivity.
  - rewrite map_map.
    transitivity (map (fun '(i, j) => H (S i, S j)) (triu_indices (length l)));
      [apply map_ext; intros [i j]; reflexivity|].
    apply IH. intros i j. rewrite HH. reflexivity.
Qed.

Lemma In_upper_pairs {A} (l : list A) u v : In (u, v) (upper_pairs l) -> In u l /\ In v l.
Proof.
  induction l as [|a l IH]; simpl; [tauto|]. intros H. apply in_app_iff in H as [H|H].
  - apply in_map_iff in H as (b & E & Hb). injection E as <- <-. tauto.
  - apply IH in H. tauto.
Qed.

Lemma relate_frames_rows t f1 f2 row :
  In row (relate_frames t f1 f2) ->
  j_dr row = fsqrt (fadd (fmul (j_dx row) (j_dx row)) (fmul (j_dy row) (j_dy row))) /\
  j_direction row = fatan2 (j_dy row) (j_dx row).
Proof.
  unfold relate_frames. intros H. apply in_flat_map in H as (ra & _ & H).
  destruct (filter _ _) as [|m ms].
  - destruct H as [<-|[]]. split; reflexivity.
  - apply in_map_iff in H as (rb & <- & _). split; reflexivity.
Qed.

Lemma fsqrt_sum_sq a b : fsqrt (Some (a * a + b * b)%R) = Some (sqrt (a * a + b * b)).
Proof. unfold fsqrt. destruct (Rlt_dec (a * a + b * b) 0); [nra | reflexivity]. Qed.

(** X16: [velocity_corr]'s [dot_product] for a pair of probes is the dot
    product [dx_i * dx_j + dy_i * dy_j] of their displacements between the
    two frames (NaN when either probe is missing at [frame2]); the rows
    are the pairs [i < j] of [relate_frames]'s rows, in order, with [r]
    their distance at [frame1]. *)
Theorem velocity_corr_dot_product t f1 f2 :
  velocity_corr t f1 f2 =
  map (fun '(ri, rj) =>
         (sqrt ((j_x ri - j_x rj) ^ 2 + (j_y ri - j_y rj) ^ 2),
          match j_dx ri, j_dy ri, j_dx rj, j_dy rj with
          | Some a, Some b, Some c, Some d => Some (a * c + b * d)%R
          | _, _, _, _ => None
          end))
      (upper_pairs (relate_frames t f1 f2)).
Proof.
  unfold velocity_corr. cbv zeta.
  rewrite (triu_map _ jrow_nan _
             (fun ra rb => (sqrt ((j_x ra - j_x rb) ^ 2 + (j_y ra - j_y rb) ^ 2),
                            fmul (fcos (fsub (j_direction ra) (j_direction rb)))
                                 (fabs (fmul (j_dr ra) (j_dr rb))))))
    by (intros a b; reflexivity).
  apply map_ext_in. intros [u v] Hin. apply In_upper_pairs in Hin as [Hu Hv].
  destruct (relate_frames_rows _ _ _ _ Hu) as [Du Au].
  destruct (relate_frames_rows _ _ _ _ Hv) as [Dv Av].
  rewrite Du, Au, Dv, Av. f_equal.
  destruct (j_dx u) as [a|], (j_dy u) as [b|], (j_dx v) as [c|], (j_dy v) as [d|];
    try reflexivity.
  cbn [fmul fadd fatan2 fsub fcos fabs option_map]. rewrite !fsqrt_sum_sq.
  cbn [fmul fabs option_map]. f_equal.
  destruct (atan2_polar a b) as [Ca Sa]. destruct (atan2_polar c d) as [Cc Sc].
  rewrite Rabs_pos_eq by (apply Rmult_le_pos; apply sqrt_pos).
  rewrite cos_minus.
  transitivity ((sqrt (a * a + b * b) * cos (atan2 b a)) * (sqrt (c * c + d * d) * cos (atan2 d c))
              + (sqrt (a * a + b * b) * sin (atan2 b a)) * (sqrt (c * c + d * d) * sin (atan2 d c)))%R;
    [ring|]. rewrite Ca, Sa, Cc, Sc. reflexivity.
Qed.

(** X17: [direction_corr]'s [cos] for a pair of probes is the dot product
    of their unit displacement vectors; a probe that did not move has
    direction [arctan2(0, 0) = 0] and counts as pointing along [+x], so it
    gives [dx_j / dr_j] rather than NaN. NaN when either probe is missing
    at [frame2]. *)
Theorem direction_corr_unit_vectors t f1 f2 :
  direction_corr t f1 f2 =
  map (fun '(ri, rj) =>
         (sqrt ((j_x ri - j_x rj) ^ 2 + (j_y ri - j_y rj) ^ 2),
          match j_dx ri, j_dy ri, j_dx rj, j_dy rj with
          | Some a, Some b, Some c, Some d =>
              Some (fst (unit_dir a b) * fst (unit_dir c d)
                    + snd (unit_dir a b) * snd (unit_dir c d))%R
          | _, _, _, _ => None
          end))
      (upper_pairs (relate_frames t f1 f2)).
Proof.
  unfold direction_corr. cbv zeta.
  rewrite (triu_map _ jrow_nan _
             (fun ra rb => (sqrt ((j_x ra - j_x rb) ^ 2 + (j_y ra - j_y rb) ^ 2),
                            fcos (fsub (j_direction ra) (j_direction rb)))))
    by (intros a b; reflexivity).
  apply map_ext_in. intros [u v] Hin. apply In_upper_pairs in Hin as [Hu Hv].
  destruct (relate_frames_rows _ _ _ _ Hu) as [_ Au].
  destruct (relate_frames_rows _ _ _ _ Hv) as [_ Av].
  rewrite Au, Av. f_equal.
  destruct (j_dx u) as [a|], (j_dy u) as [b|], (j_dx v) as [c|], (j_dy v) as [d|];
    try reflexivity.
  cbn [fatan2 fsub fcos option_map]. rewrite !atan2_unit_dir. cbn [fst snd].
  rewrite cos_minus. reflexivity.
Qed.

Lemma filter_key_none_gen {A} (g : A -> Z) (l : list A) (k : Z) :
  ~ In k (map g l) -> filter (fun b => g b =? k) l = [].
Proof.
  induction l as [|a l IH]; simpl; intros Hn; [reflexivity|].
  destruct (Z.eqb_spec (g a) k); [tauto|]. apply IH. tauto.
Qed.

Lemma filter_unique_key {A} (g : A -> Z) (l : list A) (k : Z) :
  NoDup (map g l) ->
  filter (fun b => g b =? k) l = [] \/
  exists b, filter (fun b => g b =? k) l = [b] /\ In b l /\ g b = k.
Proof.
  induction l as [|a l IH]; intros Hd; [left; reflexivity|].
  inversion Hd as [|? ? Hn Hd']; subst. cbn [filter].
  destruct (Z.eqb_spec (g a) k) as [E|E].
  - right. exists a. split; [|split; [left; reflexivity | exact E]].
    f_equal. apply (filter_key_none_gen g l k). rewrite <- E. exact Hn.
  - destruct (IH Hd') as [H|(b & H & Hb & Eb)]; [left; exact H|].
    right. exists b. split; [exact H|]. split; [right; exact Hb | exact Eb].
Qed.

Lemma upper_pairs_length {A} (l : list A) :
  (2 * length (upper_pairs l) = length l * (length l - 1))%nat.
Proof.
  induction l as [|a l IH]; [reflexivity|]. cbn [upper_pairs length].
  rewrite length_app, length_map. destruct (length l); nia.
Qed.

(** X18: with probe labels unique at [frame2], [relate_frames] has one row
    per record of [frame1], in order, labelled by its probe; a row's
    displacement is NaN exactly when its probe has no record at [frame2]
    (the left join keeps it; probes seen only at [frame2] are dropped).
    [direction_corr] and [velocity_corr] then have [n (n - 1) / 2] rows
    for the [n] records of [frame1]. *)
Theorem relate_frames_left_join t f1 f2 :
  NoDup (map probe (map snd (filter (fun '(_, r) => frame r =? f2) t))) ->
  map j_probe (relate_frames t f1 f2)
    = map probe (map snd (filter (fun '(_, r) => frame r =? f1) t)) /\
  (forall row, In row (relate_frames t f1 f2) ->
     (j_dx row = None <->
      ~ In (j_probe row) (map probe (map snd (filter (fun '(_, r) => frame r =? f2) t))))) /\
  (2 * length (direction_corr t f1 f2)
     = length (filter (fun '(_, r) => (frame r =? f1)%Z) t)
       * (length (filter (fun '(_, r) => (frame r =? f1)%Z) t) - 1))%nat /\
  (2 * length (velocity_corr t f1 f2)
     = length (filter (fun '(_, r) => (frame r =? f1)%Z) t)
       * (length (filter (fun '(_, r) => (frame r =? f1)%Z) t) - 1))%nat.
Proof.
  intros Hu.
  set (A := map snd (filter (fun '(_, r) => frame r =? f1) t)).
  set (B := map snd (filter (fun '(_, r) => frame r =? f2) t)) in *.
  assert (HJ : exists g, relate_frames t f1 f2 = map g A /\
                 forall ra, In ra A -> j_probe (g ra) = probe ra /\
                   (j_dx (g ra) = None <-> ~ In (probe ra) (map probe B))).
  { unfold relate_frames. cbv zeta. fold A B.
    match goal with |- context [flat_map ?F A] =>
      exists (fun ra => hd jrow_nan (F ra)); split;
      [apply flat_map_singletons; intros ra _ | intros ra _] end;
    destruct (filter_unique_key probe B (probe ra) Hu) as [E|(rb & E & Hb & Eb)];
      rewrite E; cbn [map hd j_probe j_dx fsub].
    - reflexivity.
    - reflexivity.
    - split; [reflexivity|]. split; [intros _ Hin | reflexivity].
      apply in_map_iff in Hin as (rb & Eb & Hb).
      assert (Hf : In rb (filter (fun b => probe b =? probe ra) B))
        by (apply filter_In; split; [exact Hb | apply Z.eqb_eq; exact Eb]).
      rewrite E in Hf. destruct Hf.
    - split; [reflexivity|]. split; [discriminate|]. intros Hn. exfalso. apply Hn.
      apply in_map_iff. exists rb. split; [exact Eb | exact Hb]. }
  destruct HJ as (g & HJ & Hg).
  assert (Hlen : length (relate_frames t f1 f2) = length (filter (fun '(_, r) => frame r =? f1) t))
    by (rewrite HJ, length_map; unfold A; apply length_map).
  split; [|split; [|split]].
  - rewrite HJ, map_map. apply map_ext_in. intros ra Hra. apply Hg, Hra.
  - intros row Hrow. rewrite HJ in Hrow. apply in_map_iff in Hrow as (ra & <- & Hra).
    destruct (Hg ra Hra) as [-> H]. exact H.
  - unfold direction_corr. cbv zeta.
    rewrite (triu_map _ jrow_nan _
               (fun ra rb => (sqrt ((j_x ra - j_x rb) ^ 2 + (j_y ra - j_y rb) ^ 2),
                              fcos (fsub (j_direction ra) (j_direction rb)))))
      by (intros a b; reflexivity).
    rewrite length_map, upper_pairs_length, Hlen. reflexivity.
  - unfold velocity_corr. cbv zeta.
    rewrite (triu_map _ jrow_nan _
               (fun ra rb => (sqrt ((j_x ra - j_x rb) ^ 2 + (j_y ra - j_y rb) ^ 2),
                              fmul (fcos (fsub (j_direction ra) (j_direction rb)))
                                   (fabs (fmul (j_dr ra) (j_dr rb))))))
      by (intros a b; reflexivity).
    rewrite length_map, upper_pairs_length, Hlen. reflexivity.
Qed.

Lemma relate_frames_left_join_witness :
  NoDup (map probe (map snd (filter (fun '(_, r) => frame r =? 1) traj_lost))) /\
  map j_probe (relate_frames traj_lost 0 1)
    = map probe (map snd (filter (fun '(_, r) => frame r =? 0) traj_lost)) /\
  (forall row, In row (relate_frames traj_lost 0 1) ->
     (j_dx row = None <->
      ~ In (j_probe row) (map probe (map snd (filter (fun '(_, r) => frame r =? 1) traj_lost))))) /\
  (2 * length (direction_corr traj_lost 0 1)
     = length (filter (fun '(_, r) => (frame r =? 0)%Z) traj_lost)
       * (length (filter (fun '(_, r) => (frame r =? 0)%Z) traj_lost) - 1))%nat /\
  (2 * length (velocity_corr traj_lost 0 1)
     = length (filter (fun '(_, r) => (frame r =? 0)%Z) traj_lost)
       * (length (filter (fun '(_, r) => (frame r =? 0)%Z) traj_lost) - 1))%nat.
Proof.
  assert (H : NoDup (map probe (map snd (filter (fun '(_, r) => frame r =? 1) traj_lost))))
    by (simpl; repeat constructor; simpl; tauto).
  split; [exact H|]. apply (relate_frames_left_join traj_lost 0 1 H).
Defined.

Lemma In_insert_R (v w : R) (l : list R) : In w (insert_R v l) <-> w = v \/ In w l.
Proof.
  induction l as [|u l IH]; simpl.
  - intuition congruence.
  - destruct (Rle_dec v u); simpl; [intuition congruence|]. rewrite IH. intuition congruence.
Qed.

Lemma In_sort_R (w : R) (l : list R) : In w (sort_R l) <-> In w l.
Proof.
  induction l as [|u l IH]; [simpl; tauto|].
  change (sort_R (u :: l)) with (insert_R u (sort_R l)).
  rewrite In_insert_R, IH. simpl. intuition congruence.
Qed.

Lemma In_somes (w : R) (l : list flt) : In w (somes l) <-> In (Some w) l.
Proof.
  induction l as [|[u|] l IH]; simpl; [tauto| |].
  - rewrite IH. intuition congruence.
  - rewrite IH. intuition congruence.
Qed.

(** Where [Int_part] lands for an index in [0, n - 1]. *)
Lemma Int_part_range (idx : R) (m : nat) :
  (0 <= idx <= INR m)%R ->
  (0 <= Int_part idx)%Z /\ (Z.to_nat (Int_part idx) <= m)%nat /\
  ((IZR (Int_part idx) < idx)%R -> (S (Z.to_nat (Int_part idx)) <= m)%nat).
Proof.
  intros [H0 Hm]. destruct (base_Int_part idx) as [Hlo Hhi].
  rewrite INR_IZR_INZ in Hm.
  assert (Hnn : (-1 < Int_part idx)%Z) by (apply lt_IZR; simpl; lra).
  assert (Hle : (Int_part idx <= Z.of_nat m)%Z) by (apply le_IZR; lra).
  repeat split; try lia.
  intro Hlt. assert (Int_part idx < Z.of_nat m)%Z by (apply lt_IZR; lra). lia.
Qed.

(** A quantile of a column lies between two of its finite values. *)
Lemma quantile_between (col : list flt) (q a : R) :
  quantile col q = Ok (Some a) ->
  exists w1 w2, In w1 (somes col) /\ In w2 (somes col) /\ (w1 <= a <= w2)%R.
Proof.
  unfold quantile.
  destruct (Rlt_dec q 0); [discriminate|]. destruct (Rlt_dec 1 q); [discriminate|].
  destruct (sort_R (somes col)) as [|v0 vs] eqn:Hs; [discriminate|].
  set (L := v0 :: vs) in *.
  set (idx := (q * INR (length L - 1))%R).
  assert (Hidx : (0 <= idx <= INR (length L - 1))%R).
  { unfold idx. pose proof (pos_INR (length L - 1)). split; [nra|].
    assert (q * INR (length L - 1) <= 1 * INR (length L - 1))%R by nra. lra. }
  destruct (Int_part_range idx (length L - 1) Hidx) as (Hi0 & Hi & Hi1).
  assert (HL : (0 < length L)%nat) by (simpl; lia).
  assert (Hin : forall j, (j < length L)%nat -> In (nth j L 0%R) (somes col)).
  { intros j Hj. apply In_sort_R. rewrite Hs. apply nth_In. exact Hj. }
  clearbody idx L.
  destruct (base_Int_part idx) as [Hlo Hhi].
  destruct (Req_dec_T (idx - IZR (Int_part idx)) 0) as [E|E]; intro Ha; injection Ha as <-.
  - exists (nth (Z.to_nat (Int_part idx)) L 0%R), (nth (Z.to_nat (Int_part idx)) L 0%R).
    split; [apply Hin; lia|]. split; [apply Hin; lia|]. lra.
  - assert (Hlt : (IZR (Int_part idx) < idx)%R) by lra.
    specialize (Hi1 Hlt).
    set (u := nth (Z.to_nat (Int_part idx)) L 0%R).
    set (w := nth (S (Z.to_nat (Int_part idx))) L 0%R).
    assert (Iu : In u (somes col)) by (apply Hin; lia).
    assert (Iw : In w (somes col)) by (apply Hin; lia).
    set (f := (idx - IZR (Int_part idx))%R).
    assert (Hf : (0 < f < 1)%R) by (unfold f; lra).
    destruct (Rle_dec u w).
    + exists u, w. repeat split; auto; nra.
    + exists w, u. repeat split; auto; nra.
Qed.

Lemma quantile_ok (col : list flt) (q : R) :
  (0 <= q <= 1)%R -> exists f, quantile col q = Ok f.
Proof.
  intros Hq. unfold quantile.
  destruct (Rlt_dec q 0); [lra|]. destruct (Rlt_dec 1 q); [lra|].
  destruct (sort_R (somes col)); [eauto|].
  destruct (Req_dec_T _ _); eauto.
Qed.

(** [X19] [is_typical]: for quantile bounds in [0, 1], when the frame is
    a row label of the table, the result has one boolean per probe, and a
    probe is typical only if its MSD at that frame is a number and some
    probe has a strictly smaller and some a strictly larger one: a probe
    with the smallest or the largest MSD, or a NaN, is never typical. *)
Theorem is_typical_strictly_inside (msds : list (flt * list flt)) (frame : Z)
    (lower upper : R) (row : list flt)
    (Hl : (0 <= lower <= 1)%R) (Hu : (0 <= upper <= 1)%R)
    (Hrow : lookup_label (IZR frame) msds = Ok row) :
  exists bs, is_typical msds frame lower upper = Ok bs /\ length bs = length row /\
    forall k, nth k bs false = true ->
      exists v, nth k row None = Some v /\
        (exists w, In (Some w) row /\ (w < v)%R) /\
        (exists w, In (Some w) row /\ (v < w)%R).
Proof.
  destruct (quantile_ok row lower Hl) as [a Ha].
  destruct (quantile_ok row upper Hu) as [b Hb].
  unfold is_typical. rewrite Hrow. simpl. rewrite Ha. simpl. rewrite Hb. simpl.
  eexists; split; [reflexivity|]. rewrite length_map. split; [reflexivity|].
  intros k Hk.
  assert (Hk' : (k < length row)%nat).
  { destruct (Nat.lt_ge_cases k (length row)) as [|Hge]; [assumption|].
    rewrite nth_overflow in Hk by (rewrite length_map; lia). discriminate. }
  set (F := fun m => fgt m a && flt_lt m b) in Hk.
  assert (Ek : nth k (map F row) false = F (nth k row None)).
  { rewrite nth_indep with (d' := F None) by (rewrite length_map; lia). apply map_nth. }
  rewrite Ek in Hk. unfold F in Hk.
  destruct (nth k row None) as [v|] eqn:Hv; [|discriminate].
  exists v. split; [reflexivity|].
  unfold flt_lt in Hk. apply andb_prop in Hk. destruct Hk as [H1 H2].
  destruct a as [qa|]; [|discriminate]. destruct b as [qb|]; [|discriminate].
  simpl in H1, H2.
  destruct (Rlt_dec qa v); [|discriminate]. destruct (Rlt_dec v qb); [|discriminate].
  destruct (quantile_between row lower qa Ha) as (w1 & _ & I1 & _ & [L1 _]).
  destruct (quantile_between row upper qb Hb) as (_ & w2 & _ & I2 & [_ L2]).
  split.
  - exists w1. split; [apply In_somes; exact I1 | lra].
  - exists w2. split; [apply In_somes; exact I2 | lra].
Qed.

Lemma is_typical_strictly_inside_witness :
  lookup_label (IZR 1) msds_three = Ok [Some 1%R; Some 2%R; Some 3%R] /\
  exists bs, is_typical msds_three 1 (1 / 10) (9 / 10) = Ok bs /\
    length bs = length [Some 1%R; Some 2%R; Some 3%R] /\
    forall k, nth k bs false = true ->
      exists v, nth k [Some 1%R; Some 2%R; Some 3%R] None = Some v /\
        (exists w, In (Some w) [Some 1%R; Some 2%R; Some 3%R] /\ (w < v)%R) /\
        (exists w, In (Some w) [Some 1%R; Some 2%R; Some 3%R] /\ (v < w)%R).
Proof.
  assert (H : lookup_label (IZR 1) msds_three = Ok [Some 1%R; Some 2%R; Some 3%R]).
  { unfold msds_three. simpl. destruct (Req_dec_T 1 1); [reflexivity | lra]. }
  split; [exact H|].
  apply (is_typical_strictly_inside msds_three 1 (1 / 10) (9 / 10)); [lra | lra | exact H].
Defined.

(** [X20] [is_typical]: a frame that is no row label of the table raises
    [KeyError], whatever the quantile bounds. *)
Theorem is_typical_missing_frame (msds : list (flt * list flt)) (frame : Z) (lower upper : R)
    (Hmiss : forall r, In r msds -> fst r <> Some (IZR frame)) :
  is_typical msds frame lower upper = Raise KeyError.
Proof.
  unfold is_typical.
  assert (lookup_label (IZR frame) msds = Raise KeyError) as ->; [|reflexivity].
  induction msds as [|[[u|] row] msds IH]; simpl; [reflexivity| |].
  - destruct (Req_dec_T u (IZR frame)) as [->|].
    + exfalso. apply (Hmiss (Some (IZR frame), row)); simpl; auto.
    + apply IH. intros r Hr. apply Hmiss. simpl; auto.
  - apply IH. intros r Hr. apply Hmiss. simpl; auto.
Qed.

Lemma is_typical_missing_frame_witness :
  (forall r, In r msds_three -> fst r <> Some (IZR 5)) /\
  is_typical msds_three 5 2 (-1) = Raise KeyError.
Proof.
  assert (H : forall r, In r msds_three -> fst r <> Some (IZR 5)).
  { intros r Hr. unfold msds_three in Hr. simpl in Hr.
    destruct Hr as [<-|[<-|[]]]; simpl; intro E; injection E; lra. }
  split; [exact H|]. apply (is_typical_missing_frame msds_three 5 2 (-1) H).
Defined.

Lemma insert_uniq_not_nil z l : insert_uniq z l <> [].
Proof.
  destruct l as [|h t]; simpl; [congruence|].
  destruct (z <? h); [congruence|]. destruct (z =? h); congruence.
Qed.

Lemma probes_nil traj : probes traj = [] -> traj = [].
Proof.
  unfold probes, sort_uniq. destruct traj as [|[i r] t]; [reflexivity|].
  simpl. intro H. exfalso. exact (insert_uniq_not_nil _ _ H).
Qed.

(** [X21] [compute_drift] fails exactly on the empty table ([pd.concat]
    of no per-probe difference), and so does [subtract_drift] when it has
    to compute the drift itself. *)
Theorem compute_drift_empty (traj : table) (smoothing : Z) :
  match traj with
  | [] => compute_drift traj smoothing = Raise ValueError /\
          subtract_drift traj None = Raise ValueError
  | _ => (exists dr, compute_drift traj smoothing = Ok dr) /\
         (exists out, subtract_drift traj None = Ok out)
  end.
Proof.
  destruct traj as [|row t] eqn:Ht; [split; reflexivity|].
  rewrite <- Ht.
  assert (Hc : forall s, exists dr, compute_drift traj s = Ok dr).
  { intro s0. unfold compute_drift.
    destruct (map (fun pid => diff_rows (group traj pid)) (probes traj)) as [|l ls] eqn:E.
    - apply map_eq_nil, probes_nil in E. rewrite Ht in E. discriminate.
    - cbn [pd_concat bind]. destruct (0 <? s0); eexists; reflexivity. }
  split; [apply Hc|].
  destruct (Hc 0) as [dr Hdr]. unfold subtract_drift. rewrite Hdr. eexists; reflexivity.
Qed.

Lemma probes_translate traj c d : probes (translate traj c d) = probes traj.
Proof.
  unfold probes, translate. rewrite map_map. f_equal. apply map_ext. intros [i r]. reflexivity.
Qed.

Lemma group_translate traj c d p : group (translate traj c d) p = translate (group traj p) c d.
Proof.
  unfold group, translate. induction traj as [|[i r] t IH]; [reflexivity|].
  simpl. destruct (probe r =? p); simpl; rewrite IH; reflexivity.
Qed.

Lemma zipWith_map_shift {A B} (sh : A -> A) (F : A -> option A -> B) (l1 : list A) (l2 : list (option A)) :
  (forall a b, F (sh a) (option_map sh b) = F a b) ->
  zipWith F (map sh l1) (map (option_map sh) l2) = zipWith F l1 l2.
Proof.
  intros HF. revert l2. induction l1 as [|a l1 IH]; intros [|b l2]; simpl; try reflexivity.
  rewrite HF, IH. reflexivity.
Qed.

Lemma diff_rows_translate g c d : diff_rows (translate g c d) = diff_rows g.
Proof.
  unfold diff_rows, translate.
  set (sh := fun r => mkrec (probe r) (frame r) (x r + c) (y r + d)%R).
  assert (Hs : map snd (map (fun '(i, r) => (i, mkrec (probe r) (frame r) (x r + c) (y r + d))%R) g)
               = map sh (map snd g)).
  { rewrite !map_map. apply map_ext. intros [i r]. reflexivity. }
  rewrite Hs.
  replace (None :: map Some (map sh (map snd g)))
    with (map (option_map sh) (None :: map Some (map snd g)))
    by (simpl; rewrite !map_map; reflexivity).
  apply zipWith_map_shift. intros a [b|]; unfold sh; simpl; [|reflexivity].
  replace (x a + c - (x b + c))%R with (x a - x b)%R by ring.
  replace (y a + d - (y b + d))%R with (y a - y b)%R by ring.
  reflexivity.
Qed.

(** [X22] [compute_drift] sees only the steps of each probe: shifting every
    position by the same vector leaves the drift unchanged. *)
Theorem compute_drift_translate (traj : table) (c d : R) (smoothing : Z) :
  compute_drift (translate traj c d) smoothing = compute_drift traj smoothing.
Proof.
  unfold compute_drift. rewrite probes_translate.
  assert (E : map (fun pid => diff_rows (group (translate traj c d) pid)) (probes traj)
              = map (fun pid => diff_rows (group traj pid)) (probes traj)).
  { apply map_ext. intro p. rewrite group_translate. apply diff_rows_translate. }
  rewrite E. reflexivity.
Qed.

Lemma firstn_1_skipn {A} (l : list A) (d : A) i :
  (i < length l)%nat -> firstn 1 (skipn i l) = [nth i l d].
Proof.
  revert i. induction l as [|a l IH]; intros i Hi; simpl in Hi; [lia|].
  destruct i; [reflexivity|]. simpl. apply IH. lia.
Qed.

Lemma rolling_mean_1 vals : rolling_mean 1 vals = vals.
Proof.
  unfold rolling_mean.
  transitivity (map (fun j => (fun v : flt => v) (nth j vals None)) (seq 0 (length vals))).
  - apply map_ext_in. intros i Hi. apply in_seq in Hi.
    replace (Nat.min 1 (S i)) with 1%nat by lia. replace (S i - 1)%nat with i by lia.
    rewrite (firstn_1_skipn vals None i) by lia.
    destruct (nth i vals None) as [v|]; [apply fmean_single | reflexivity].
  - rewrite (map_nth_seq0 (fun v : flt => v) vals None). apply map_id.
Qed.

(** [X23] A rolling mean over one frame is no smoothing: [compute_drift]
    with [smoothing = 1] gives the same drift as with [smoothing = 0]. *)
Theorem compute_drift_smoothing_one (traj : table) :
  compute_drift traj 1 = compute_drift traj 0.
Proof.
  unfold compute_drift.
  destruct (pd_concat _) as [delta|e]; [|reflexivity]. cbn [bind].
  change (0 <? 1) with true. change (0 <? 0) with false. cbv iota.
  change (Z.to_nat 1) with 1%nat. rewrite !rolling_mean_1. reflexivity.
Qed.

Lemma fold_left_Rmin_le vs v : (fold_left Rmin vs v <= v)%R.
Proof.
  revert v. induction vs as [|w vs IH]; intro v; simpl; [lra|].
  pose proof (IH (Rmin v w)). pose proof (Rmin_l v w). lra.
Qed.

Lemma fold_left_Rmax_ge vs v : (v <= fold_left Rmax vs v)%R.
Proof.
  revert v. induction vs as [|w vs IH]; intro v; simpl; [lra|].
  pose proof (IH (Rmax v w)). pose proof (Rmax_l v w). lra.
Qed.

Lemma list_min_le_max l : (list_min l <= list_max l)%R.
Proof.
  destruct l as [|v vs]; simpl; [lra|].
  pose proof (fold_left_Rmin_le vs v). pose proof (fold_left_Rmax_ge vs v). lra.
Qed.

Lemma SS_map_seq (f : nat -> R) a m :
  (forall i j, (i <= j)%nat -> (f i <= f j)%R) -> StronglySorted Rle (map f (seq a m)).
Proof.
  intros Hf. revert a. induction m as [|m IH]; intro a; simpl; constructor; [apply IH|].
  apply Forall_forall. intros v Hv. apply in_map_iff in Hv as (j & <- & Hj).
  apply in_seq in Hj. apply Hf. lia.
Qed.

Lemma decreases_sorted e : decreases e = false -> StronglySorted Rle e.
Proof.
  intros H. apply Sorted_StronglySorted; [intros a b c; lra|].
  induction e as [|a [|b l] IH]; [constructor | repeat constructor|].
  cbn [decreases] in H. apply orb_false_iff in H as [H1 H2].
  destruct (Rlt_dec (b - a) 0); [discriminate|].
  constructor; [apply IH, H2|]. constructor. lra.
Qed.

(** The edges [np.histogram] returns never decrease. *)
Lemma hist_edges_sorted values bins e :
  hist_edges values bins = Ok e -> StronglySorted Rle e.
Proof.
  destruct bins as [n|es]; unfold hist_edges.
  - destruct (n <? 1) eqn:Hn; [discriminate|]. apply Z.ltb_ge in Hn.
    intro E. injection E as <-.
    assert (Hmm : forall mn mx : R, (mn <= mx)%R ->
              StronglySorted Rle (map (fun k => (mn + INR k * (mx - mn) / IZR n)%R)
                                      (seq 0 (S (Z.to_nat n))))).
    { intros mn mx Hle. apply SS_map_seq. intros i j Hij.
      apply le_INR in Hij. assert (0 < IZR n)%R by (apply IZR_lt; lia).
      unfold Rdiv. apply Rplus_le_compat_l. apply Rmult_le_compat_r.
      - left. apply Rinv_0_lt_compat. assumption.
      - apply Rmult_le_compat_r; lra. }
    destruct values as [|v vs]; cbv beta iota zeta.
    + destruct (Req_dec_T 0 1); apply Hmm; lra.
    + pose proof (list_min_le_max (v :: vs)).
      destruct (Req_dec_T _ _); apply Hmm; lra.
  - destruct (decreases es) eqn:Hd; [discriminate|]. intro E. injection E as <-.
    apply decreases_sorted, Hd.
Qed.

Lemma filter_gt_nil es v :
  Forall (fun e => (v < e)%R) es -> filter (fun e => if Rle_dec e v then true else false) es = [].
Proof.
  induction 1 as [|a es Ha _ IH]; simpl; [reflexivity|].
  destruct (Rle_dec a v); [lra | exact IH].
Qed.

(** [np.digitize] puts [v] in bin [k]: [e_(k-1) <= v < e_k]. *)
Lemma digitize_bounds (edges : list R) (v : R) :
  StronglySorted Rle edges ->
  let k := length (filter (fun e => if Rle_dec e v then true else false) edges) in
  ((0 < k)%nat -> (nth (k - 1) edges 0 <= v)%R) /\
  ((k < length edges)%nat -> (v < nth k edges 0)%R).
Proof.
  induction edges as [|e es IH]; intros Hs; simpl; [split; intros; lia|].
  apply StronglySorted_inv in Hs as [Hs He].
  destruct (Rle_dec e v) as [Hev|Hev]; cbn [length].
  - destruct (IH Hs) as [IH1 IH2].
    set (k' := length (filter (fun e => if Rle_dec e v then true else false) es)) in *.
    split.
    + intros _. destruct k' as [|k'']; simpl; [exact Hev|].
      replace k'' with (S k'' - 1)%nat by lia. apply IH1. lia.
    + intros Hk. apply IH2. lia.
  - assert (H0 : length (filter (fun e => if Rle_dec e v then true else false) es) = 0%nat).
    { apply length_zero_iff_nil. apply filter_gt_nil.
      eapply Forall_impl; [|exact He]. intros a Ha. simpl in Ha. lra. }
    rewrite H0. split; [lia|]. intros _. simpl. lra.
Qed.

Lemma nth_SS_mono (edges : list R) i j :
  StronglySorted Rle edges -> (i <= j)%nat -> (j < length edges)%nat ->
  (nth i edges 0 <= nth j edges 0)%R.
Proof.
  revert i j. induction edges as [|e es IH]; intros i j Hs Hij Hj; simpl in Hj; [lia|].
  apply StronglySorted_inv in Hs as [Hs He].
  destruct i as [|i]; destruct j as [|j]; simpl; try lia; try lra.
  - rewrite Forall_forall in He. apply He, nth_In. lia.
  - apply IH; [exact Hs | lia | lia].
Qed.

Lemma Rsum_ge (l : list R) (a : R) :
  (forall v, In v l -> (a <= v)%R) -> (a * INR (length l) <= Rsum l)%R.
Proof.
  induction l as [|v l IH]; intros H; cbn [length Rsum fold_right]; [simpl; lra|].
  unfold Rsum in *. cbn [fold_right]. rewrite S_INR.
  pose proof (H v (or_introl eq_refl)).
  assert (a * INR (length l) <= fold_right Rplus 0 l)%R by (apply IH; intros; apply H; right; assumption).
  lra.
Qed.

Lemma Rsum_lt (l : list R) (b : R) :
  l <> [] -> (forall v, In v l -> (v < b)%R) -> (Rsum l < b * INR (length l))%R.
Proof.
  induction l as [|v l IH]; intros Hne H; [congruence|].
  unfold Rsum in *. cbn [fold_right length]. rewrite S_INR.
  pose proof (H v (or_introl eq_refl)).
  destruct l as [|w l].
  - simpl. lra.
  - assert (fold_right Rplus 0 (w :: l) < b * INR (length (w :: l)))%R
      by (apply IH; [congruence | intros; apply H; right; assumption]).
    lra.
Qed.

(** The mean of a non-empty list is at least a lower bound of its values,
    and below a strict upper bound of them. *)
Lemma Rmean_ge (l : list R) (a : R) :
  l <> [] -> (forall v, In v l -> (a <= v)%R) -> (a <= Rmean l)%R.
Proof.
  intros Hne H. unfold Rmean.
  assert (Hn : (0 < INR (length l))%R).
  { apply lt_0_INR. destruct l; [congruence | simpl; lia]. }
  pose proof (Rsum_ge l a H).
  apply (Rmult_le_reg_r (INR (length l))); [exact Hn|].
  unfold Rdiv. rewrite Rmult_assoc, Rinv_l by lra. lra.
Qed.

Lemma Rmean_lt (l : list R) (b : R) :
  l <> [] -> (forall v, In v l -> (v < b)%R) -> (Rmean l < b)%R.
Proof.
  intros Hne H. unfold Rmean.
  assert (Hn : (0 < INR (length l))%R).
  { apply lt_0_INR. destruct l; [congruence | simpl; lia]. }
  pose proof (Rsum_lt l b Hne H).
  apply (Rmult_lt_reg_r (INR (length l))); [exact Hn|].
  unfold Rdiv. rewrite Rmult_assoc, Rinv_l by lra. lra.
Qed.

Lemma SS_map_lt (f : Z -> R) (ks : list Z) :
  StronglySorted Z.lt ks ->
  (forall k1 k2, In k1 ks -> In k2 ks -> k1 < k2 -> (f k1 < f k2)%R) ->
  StronglySorted Rlt (map f ks).
Proof.
  induction 1 as [|k ks Hs IH Hk]; intros Hf; simpl; constructor.
  - apply IH. intros k1 k2 I1 I2. apply Hf; right; assumption.
  - apply Forall_forall. intros v Hv. apply in_map_iff in Hv as (k2 & <- & I2).
    apply Hf; [left; reflexivity | right; exact I2 |].
    rewrite Forall_forall in Hk. apply Hk, I2.
Qed.

(** [X24] The binning step of [_tp_corr]: the rows it returns are indexed
    by mean separations in strictly increasing order (each bin's mean [R]
    lies in its bin, and the bins follow each other). *)
Theorem tp_bin_sorted (D : list (R * R * R)) (bins : bins_spec) :
  match tp_bin D bins with
  | Ok out => StronglySorted Rlt (map fst out)
  | Raise _ => True
  end.
Proof.
  unfold tp_bin. destruct (hist_edges _ bins) as [edges|e] eqn:He; [|exact I]. cbn [bind].
  pose proof (hist_edges_sorted _ _ _ He) as Hs.
  set (cnt := fun v => length (filter (fun e => if Rle_dec e v then true else false) edges)).
  set (g := map (fun '(r, a, b) => (digitize edges r, (r, a, b))) D).
  set (Rs := fun k => map (fun '(r, _, _) => r) (map snd (filter (fun '(j, _) => j =? k) g))).
  assert (Hin : forall k r, In r (Rs k) -> k = Z.of_nat (cnt r)).
  { intros k r Hr. unfold Rs in Hr.
    apply in_map_iff in Hr as ([[r' a'] b'] & Er & Hr). simpl in Er. subst r'.
    apply in_map_iff in Hr as ([j row] & Ej & Hr). simpl in Ej. subst row.
    apply filter_In in Hr as [Hg Hj]. apply Z.eqb_eq in Hj. subst j.
    unfold g in Hg. apply in_map_iff in Hg as ([[r'' a''] b''] & E & _).
    injection E as <- <- <- <-. reflexivity. }
  assert (Hne : forall k, In k (sort_uniq (map fst g)) -> Rs k <> []).
  { intros k Hk. apply In_sort_uniq, in_map_iff in Hk as ([j row] & Ej & Hk). simpl in Ej. subst j.
    unfold Rs. intro E. apply map_eq_nil, map_eq_nil in E.
    assert (In (k, row) (filter (fun '(j, _) => j =? k) g)) as Hf.
    { apply filter_In. split; [exact Hk | apply Z.eqb_refl]. }
    rewrite E in Hf. destruct Hf. }
  assert (Hcnt : forall r, (cnt r <= length edges)%nat) by (intro r; apply filter_length_le).
  rewrite map_map.
  apply (SS_map_lt (fun k => Rmean (Rs k))); [apply sort_uniq_sorted|].
  intros k1 k2 I1 I2 Hlt.
  assert (X2 : exists r2, In r2 (Rs k2)).
  { destruct (Rs k2) as [|r2 l2] eqn:E2; [exfalso; exact (Hne k2 I2 E2)|].
    exists r2. left. reflexivity. }
  assert (X1 : exists r1, In r1 (Rs k1)).
  { destruct (Rs k1) as [|r1 l1] eqn:E1; [exfalso; exact (Hne k1 I1 E1)|].
    exists r1. left. reflexivity. }
  destruct X1 as [r1 Ir1]. destruct X2 as [r2 Ir2].
  pose proof (Hin k1 r1 Ir1) as Hk1. pose proof (Hin k2 r2 Ir2) as Hk2.
  pose proof (Hcnt r2).
  set (c1 := cnt r1) in *. set (c2 := cnt r2) in *.
  assert (Hc : (c1 < c2)%nat) by lia.
  set (E := nth c1 edges 0%R).
  assert (M1 : (Rmean (Rs k1) < E)%R).
  { apply Rmean_lt; [exact (Hne k1 I1)|]. intros v Hv.
    pose proof (Hin k1 v Hv) as Hv1. assert (Ev : cnt v = c1) by lia.
    destruct (digitize_bounds edges v Hs) as [_ Hup]. fold (cnt v) in Hup.
    rewrite Ev in Hup. apply Hup. lia. }
  assert (M2 : (E <= Rmean (Rs k2))%R).
  { apply Rmean_ge; [exact (Hne k2 I2)|]. intros v Hv.
    pose proof (Hin k2 v Hv) as Hv2. assert (Ev : cnt v = c2) by lia.
    destruct (digitize_bounds edges v Hs) as [Hlo _]. fold (cnt v) in Hlo.
    rewrite Ev in Hlo. specialize (Hlo ltac:(lia)).
    pose proof (nth_SS_mono edges c1 (c2 - 1) Hs ltac:(lia) ltac:(lia)). unfold E. lra. }
  lra.
Qed.

Lemma last_In_cons (a : Z) l d : In (last (a :: l) d) (a :: l).
Proof.
  revert a. induction l as [|b l IH]; intro a; [left; reflexivity|].
  change (last (a :: b :: l) d) with (last (b :: l) d). right. apply IH.
Qed.

Lemma last_map_frame (l : table) (d : Z * rec) :
  frame (snd (last l d)) = last (map (fun '(_, r) => frame r) l) (frame (snd d)).
Proof.
  induction l as [|[i r] [|b l] IH]; [reflexivity | reflexivity|].
  change (last ((i, r) :: b :: l) d) with (last (b :: l) d). rewrite IH. reflexivity.
Qed.

(** C8 (amended): on every trajectory, whenever [msd] returns a table it
    has explored exactly the lags [1 .. m] with
    [m = min(max_lagtime, number of records)]: its rows carry the lags
    [1 .. m - 1] and the last one, [m], is the row it drops. On a
    trajectory whose frames strictly increase, the number of records is at
    most the number of frames it covers (last minus first plus one), and
    strictly less when a frame between the first and the last is
    missing. *)
Theorem msd_lagtimes_clamp :
  (forall traj mpp fps max_lagtime detail,
     match msd traj mpp fps max_lagtime detail with
     | Ok tbl =>
         msd_lagtimes traj max_lagtime
           = arange 1 (1 + Z.min max_lagtime (Z.of_nat (length traj))) /\
         map fst tbl ++ [Z.min max_lagtime (Z.of_nat (length traj))]
           = msd_lagtimes traj max_lagtime
     | Raise _ => True
     end) /\
  (forall traj : table,
     StronglySorted Z.lt (map (fun '(_, r) => frame r) traj) ->
     Z.of_nat (length traj) <= covered_frames traj /\
     match traj with
     | [] => True
     | (_, r0) :: _ =>
         (exists g, frame r0 <= g < frame r0 + covered_frames traj /\
                    ~ In g (map (fun '(_, r) => frame r) traj)) ->
         Z.of_nat (length traj) < covered_frames traj
     end).
Proof.
  split.
  - intros traj mpp fps max_lagtime detail.
    destruct (msd traj mpp fps max_lagtime detail) as [tbl|e] eqn:E; [|exact I].
    pose proof (msd_keys _ _ _ _ _ _ E) as Hk.
    apply msd_Ok in E as (vs & Hne & _).
    set (m := Z.min max_lagtime (Z.of_nat (length traj))) in *.
    assert (Hl : msd_lagtimes traj max_lagtime = arange 1 (1 + m))
      by (unfold msd_lagtimes; apply arange_shift1).
    rewrite Hl in Hne |- *. split; [reflexivity|].
    assert (Hm : 1 <= m).
    { destruct (Z_lt_le_dec m 1) as [Hm|Hm]; [|exact Hm].
      exfalso. apply Hne. unfold arange. replace (Z.to_nat (1 + m - 1)) with 0%nat by lia.
      reflexivity. }
    rewrite Hk. replace (1 + m) with (m + 1) by lia. symmetry. apply arange_snoc. lia.
  - intros traj Hs.
    destruct traj as [|[i0 r0] rest]; [simpl; split; [lia | exact I]|].
    set (fs := map (fun '(_, r) => frame r) ((i0, r0) :: rest)) in *.
    assert (Hfs : fs = frame r0 :: map (fun '(_, r) => frame r) rest) by reflexivity.
    set (fl := last fs (frame r0)).
    assert (Hcov : covered_frames ((i0, r0) :: rest) = fl - frame r0 + 1).
    { unfold covered_frames, fl, fs. rewrite last_map_frame. reflexivity. }
    assert (Hlen : length ((i0, r0) :: rest) = length fs) by (unfold fs; rewrite length_map; reflexivity).
    rewrite Hfs in Hs.
    assert (Hrange : forall z, In z fs -> frame r0 <= z <= fl).
    { intros z Hz. rewrite Hfs in Hz. split; [apply (SS_first _ _ _ Hs Hz)|].
      unfold fl. rewrite Hfs. apply (SS_last _ _ Hs z Hz). }
    assert (Hfl : frame r0 <= fl).
    { assert (Hin : In fl fs) by (unfold fl; rewrite Hfs; apply last_In_cons).
      specialize (Hrange fl Hin). lia. }
    assert (Hnd : NoDup fs) by (rewrite Hfs; apply SS_NoDup, Hs).
    rewrite Hcov, Hlen. split.
    + assert (Hinc : incl fs (arange (frame r0) (fl + 1))).
      { intros z Hz. apply In_arange. specialize (Hrange z Hz). lia. }
      pose proof (NoDup_incl_length Hnd Hinc) as H. rewrite arange_length in H. lia.
    + intros (g & Hg & Hng). fold fs in Hng.
      assert (Hinc : incl fs (arange (frame r0) g ++ arange (g + 1) (fl + 1))).
      { intros z Hz. apply in_or_app. specialize (Hrange z Hz).
        destruct (Z.lt_trichotomy z g) as [Hz'|[->|Hz']].
        - left. apply In_arange. lia.
        - contradiction.
        - right. apply In_arange. lia. }
      pose proof (NoDup_incl_length Hnd Hinc) as H.
      rewrite length_app, !arange_length in H. lia.
Qed.

Lemma msd_lagtimes_clamp_witness :
  StronglySorted Z.lt (map (fun '(_, r) => frame r) traj_gap) /\
  (exists g, 0 <= g < 0 + covered_frames traj_gap /\
             ~ In g (map (fun '(_, r) => frame r) traj_gap)) /\
  Z.of_nat (length traj_gap) < covered_frames traj_gap.
Proof.
  assert (Hs : StronglySorted Z.lt (map (fun '(_, r) => frame r) traj_gap)).
  { simpl. repeat constructor; lia. }
  assert (Hg : exists g, 0 <= g < 0 + covered_frames traj_gap /\
                         ~ In g (map (fun '(_, r) => frame r) traj_gap)).
  { exists 1. split; [simpl; lia|]. simpl. lia. }
  split; [exact Hs|]. split; [exact Hg|].
  apply (proj2 (proj2 msd_lagtimes_clamp traj_gap Hs)). exact Hg.
Defined.

Lemma fold_left_Rmax_In vs v : In (fold_left Rmax vs v) (v :: vs).
Proof.
  revert v. induction vs as [|w vs IH]; intro v; [left; reflexivity|]. simpl.
  destruct (IH (Rmax v w)) as [E|Hin].
  - rewrite <- E. unfold Rmax. destruct (Rle_dec v w); [right; left | left]; reflexivity.
  - right. right. exact Hin.
Qed.

Lemma fold_left_Rmin_In vs v : In (fold_left Rmin vs v) (v :: vs).
Proof.
  revert v. induction vs as [|w vs IH]; intro v; [left; reflexivity|]. simpl.
  destruct (IH (Rmin v w)) as [E|Hin].
  - rewrite <- E. unfold Rmin. destruct (Rle_dec v w); [left | right; left]; reflexivity.
  - right. right. exact Hin.
Qed.

Lemma fold_left_Rmax_ge_all vs v w : In w (v :: vs) -> (w <= fold_left Rmax vs v)%R.
Proof.
  revert v. induction vs as [|u vs IH]; intros v Hw.
  - destruct Hw as [<-|[]]. simpl. lra.
  - simpl. destruct Hw as [<-|[<-|Hw]].
    + pose proof (fold_left_Rmax_ge vs (Rmax v u)). pose proof (Rmax_l v u). lra.
    + pose proof (fold_left_Rmax_ge vs (Rmax v u)). pose proof (Rmax_r v u). lra.
    + apply IH. right. exact Hw.
Qed.

Lemma fold_left_Rmin_le_all vs v w : In w (v :: vs) -> (fold_left Rmin vs v <= w)%R.
Proof.
  revert v. induction vs as [|u vs IH]; intros v Hw.
  - destruct Hw as [<-|[]]. simpl. lra.
  - simpl. destruct Hw as [<-|[<-|Hw]].
    + pose proof (fold_left_Rmin_le vs (Rmin v u)). pose proof (Rmin_l v u). lra.
    + pose proof (fold_left_Rmin_le vs (Rmin v u)). pose proof (Rmin_r v u). lra.
    + apply IH. right. exact Hw.
Qed.

(** The bounding box of values that take exactly the values [a] and [b]. *)
Lemma list_max_min_two (l : list R) (a b : R) :
  In a l -> In b l -> (forall v, In v l -> v = a \/ v = b) ->
  list_max l = Rmax a b /\ list_min l = Rmin a b.
Proof.
  destruct l as [|v vs]; [intros []|]. intros Ha Hb H. unfold list_max, list_min.
  pose proof (fold_left_Rmax_ge_all vs v a Ha). pose proof (fold_left_Rmax_ge_all vs v b Hb).
  pose proof (fold_left_Rmin_le_all vs v a Ha). pose proof (fold_left_Rmin_le_all vs v b Hb).
  destruct (H _ (fold_left_Rmax_In vs v)) as [E1|E1];
  destruct (H _ (fold_left_Rmin_In vs v)) as [E2|E2]; rewrite E1, E2;
  unfold Rmax, Rmin; destruct (Rle_dec a b); split; lra.
Qed.

(** C4 (amended): for a probe whose records visit exactly the two
    positions [(x1, y1)] and [(x2, y2)], [is_not_dirt] flags it [True]
    exactly when their distance [d] exceeds [threshold], for every [mpp]:
    [mpp] is not used, the distance is compared in pixels. *)
Theorem is_not_dirt_two_points traj threshold mpp pid x1 y1 x2 y2
    (Hv1 : exists f r, In (f, r) traj /\ probe r = pid /\ x r = x1 /\ y r = y1)
    (Hv2 : exists f r, In (f, r) traj /\ probe r = pid /\ x r = x2 /\ y r = y2)
    (Honly : forall f r, In (f, r) traj -> probe r = pid ->
               (x r = x1 /\ y r = y1) \/ (x r = x2 /\ y r = y2)) :
  lookup pid (is_not_dirt traj threshold mpp) = Some true <->
  (threshold < sqrt ((x2 - x1) ^ 2 + (y2 - y1) ^ 2))%R.
Proof.
  assert (Hp : In pid (probes traj)).
  { destruct Hv1 as (f & r & Hr & Ep & _). unfold probes. apply In_sort_uniq, in_map_iff.
    exists (f, r). split; assumption. }
  assert (Hg : forall r, In r (map snd (group traj pid)) <->
                         exists f, In (f, r) traj /\ probe r = pid).
  { intros r. rewrite in_map_iff. split.
    - intros ([f r'] & <- & Hr). apply filter_In in Hr as [Hr Ep].
      exists f. split; [exact Hr | apply Z.eqb_eq; exact Ep].
    - intros (f & Hr & Ep). exists (f, r). split; [reflexivity|].
      apply filter_In. split; [exact Hr | apply Z.eqb_eq; exact Ep]. }
  set (g := map snd (group traj pid)) in *.
  destruct Hv1 as (f1 & r1 & H1 & P1 & X1 & Y1).
  destruct Hv2 as (f2 & r2 & H2 & P2 & X2 & Y2).
  assert (I1 : In r1 g) by (apply Hg; exists f1; auto).
  assert (I2 : In r2 g) by (apply Hg; exists f2; auto).
  assert (Hall : forall r, In r g -> (x r = x1 /\ y r = y1) \/ (x r = x2 /\ y r = y2)).
  { intros r Hr. apply Hg in Hr as (f & Hr & Ep). apply (Honly f r Hr Ep). }
  destruct (list_max_min_two (map x g) x1 x2) as [Mx Nx].
  { apply in_map_iff. exists r1. auto. }
  { apply in_map_iff. exists r2. auto. }
  { intros v Hv. apply in_map_iff in Hv as (r & <- & Hr). destruct (Hall r Hr) as [[]|[]]; auto. }
  destruct (list_max_min_two (map y g) y1 y2) as [My Ny].
  { apply in_map_iff. exists r1. auto. }
  { apply in_map_iff. exists r2. auto. }
  { intros v Hv. apply in_map_iff in Hv as (r & <- & Hr). destruct (Hall r Hr) as [[]|[]]; auto. }
  unfold is_not_dirt. rewrite lookup_map_pairs by reflexivity.
  destruct (in_dec Z.eq_dec pid (probes traj)) as [_|]; [|contradiction].
  cbv beta zeta. cbn [snd]. fold g. rewrite Mx, Nx, My, Ny.
  assert (Ed : ((Rmax x1 x2 - Rmin x1 x2) ^ 2 + (Rmax y1 y2 - Rmin y1 y2) ^ 2
                = (x2 - x1) ^ 2 + (y2 - y1) ^ 2)%R).
  { unfold Rmax, Rmin. destruct (Rle_dec x1 x2), (Rle_dec y1 y2); ring. }
  rewrite Ed.
  destruct (Rlt_dec threshold (sqrt ((x2 - x1) ^ 2 + (y2 - y1) ^ 2))); split; intro H;
    first [assumption | reflexivity | discriminate | contradiction].
Qed.

Lemma is_not_dirt_two_points_witness :
  (exists f r, In (f, r) traj_two_points /\ probe r = 1 /\ x r = 0%R /\ y r = 0%R) /\
  (exists f r, In (f, r) traj_two_points /\ probe r = 1 /\ x r = 2%R /\ y r = 0%R) /\
  (forall f r, In (f, r) traj_two_points -> probe r = 1 ->
     (x r = 0%R /\ y r = 0%R) \/ (x r = 2%R /\ y r = 0%R)) /\
  (lookup 1 (is_not_dirt traj_two_points 3 2) = Some true <->
   (3 < sqrt ((2 - 0) ^ 2 + (0 - 0) ^ 2))%R).
Proof.
  assert (H1 : exists f r, In (f, r) traj_two_points /\ probe r = 1 /\ x r = 0%R /\ y r = 0%R).
  { exists 0, (mkrec 1 0 0 0). simpl. auto. }
  assert (H2 : exists f r, In (f, r) traj_two_points /\ probe r = 1 /\ x r = 2%R /\ y r = 0%R).
  { exists 1, (mkrec 1 1 2 0). simpl. auto. }
  assert (H3 : forall f r, In (f, r) traj_two_points -> probe r = 1 ->
                 (x r = 0%R /\ y r = 0%R) \/ (x r = 2%R /\ y r = 0%R)).
  { intros f r Hr _. simpl in Hr. destruct Hr as [E|[E|[]]]; injection E as <- <-; simpl; auto. }
  split; [exact H1|]. split; [exact H2|]. split; [exact H3|].
  apply (is_not_dirt_two_points traj_two_points 3 2 1 0 0 2 0 H1 H2 H3).
Defined.
